(** * COVID-19 Global Data Tracker: the analysis pipeline of [main.py]

    A shallow embedding of the single routine [main] of [src/main.py]:
    the loader, the cleaner, the data handed to the chart and map
    renderers, and the console text.

    Numbers are binary64 floats, as in the pandas columns of the script:
    a missing numeric cell is NaN, [x / 0] is NaN or an infinity and never
    raises.  Library calls (pandas, matplotlib, seaborn, plotly) are
    modelled by their documented behaviour on the data; what a renderer
    draws is represented by the data the script passes to it. *)

From Stdlib Require Import Floats.
From Stdlib Require Import List String Ascii ZArith Bool Lia.
From Stdlib Require Import Permutation Sorted.
Import ListNotations.

Local Open Scope string_scope.
Local Open Scope list_scope.

(* ================================================================== *)
(** * Data model *)
(* ================================================================== *)

(** Numeric columns of the dataset.  The named ones are those the script
    reads or writes; [other_column] stands for every further numeric
    column of the CSV file, addressed by its header. *)
Inductive NumCol : Type :=
| population
| total_cases
| new_cases
| total_deaths
| new_deaths
| total_vaccinations
| people_vaccinated
| people_fully_vaccinated
| people_fully_vaccinated_per_hundred
| total_cases_per_million
| other_column (name : string).

Definition NumCol_eq_dec (a b : NumCol) : {a = b} + {a <> b}.
Proof. decide equality. apply string_dec. Defined.

Definition col_in (c : NumCol) (cols : list NumCol) : bool :=
  if in_dec NumCol_eq_dec c cols then true else false.

(** A timestamp, as a count of time units since the epoch. *)
Definition Timestamp := Z.

(** The text of a [date] field as [pd.read_csv] leaves it, classified by
    what [pd.to_datetime] makes of it in its column: an empty field (read
    as NaN) becomes NaT, a date in the format of the column becomes its
    timestamp, anything else (text that is no date, or a date in another
    format than the one pandas settles on for the column) makes the
    conversion raise. *)
Inductive date_text : Type :=
| DateBlank
| DateOk (t : Timestamp)
| DateBad.

(** One row of the data frame; [D] is the type of the [date] cell
    ([date_text] as loaded, [option Timestamp] once parsed, [None] being
    NaT).  A missing string cell is [None], a missing number is NaN. *)
Record Row (D : Type) : Type := mkRow {
  location : option string;
  iso_code : option string;
  date : D;
  num : NumCol -> float;
  text : string -> option string
}.

Arguments mkRow {D}.
Arguments location {D}.
Arguments iso_code {D}.
Arguments date {D}.
Arguments num {D}.
Arguments text {D}.

Definition RawTable := list (Row date_text).
Definition Table := list (Row (option Timestamp)).

(** A row of [df_filtered] once the three derived columns are added. *)
Record ERow : Type := mkERow {
  base : Row (option Timestamp);
  death_rate : float;
  cases_per_million : float;
  deaths_per_million : float
}.

Definition with_num {D} (f : NumCol -> float) (r : Row D) : Row D :=
  {| location := location r; iso_code := iso_code r; date := date r;
     num := f; text := text r |}.

(* ================================================================== *)
(** * The pandas operations the script uses *)
(* ================================================================== *)

Definition isna_opt {A} (o : option A) : bool :=
  match o with None => true | Some _ => false end.

Definition notna_opt {A} (o : option A) : bool := negb (isna_opt o).

(** [pd.to_datetime(df['date'])]: raises ([None]) on an unparseable
    field, and turns a blank one into NaT. *)
Definition to_datetime_cell (d : date_text) : option (option Timestamp) :=
  match d with
  | DateBlank => Some None
  | DateOk t => Some (Some t)
  | DateBad => None
  end.

Fixpoint to_datetime (t : RawTable) : option Table :=
  match t with
  | [] => Some []
  | r :: t' =>
      match to_datetime_cell (date r), to_datetime t' with
      | Some d, Some rest =>
          Some ({| location := location r; iso_code := iso_code r; date := d;
                   num := num r; text := text r |} :: rest)
      | _, _ => None
      end
  end.

(** [Series.isin(values)]: a missing cell is in no list of strings. *)
Definition isin (values : list string) (cell : option string) : bool :=
  match cell with
  | Some s => existsb (String.eqb s) values
  | None => false
  end.

(** [df.groupby('location')[cols].fillna(method='ffill')], assigned back
    to [cols]: one pass in row order; [seen k] holds the cells of the most
    recent row of group [k], so that for a column of [cols] it is the last
    valid value met so far in that group (NaN when there is none).  A row
    whose key is missing belongs to no group and gets NaN. *)
Fixpoint group_ffill {D} (cols : list NumCol) (seen : string -> NumCol -> float)
         (t : list (Row D)) : list (Row D) :=
  match t with
  | [] => []
  | r :: t' =>
      match location r with
      | None =>
          with_num (fun c => if col_in c cols then nan else num r c) r
            :: group_ffill cols seen t'
      | Some k =>
          let filled := fun c =>
            if col_in c cols && PrimFloat.is_nan (num r c) then seen k c
            else num r c in
          with_num filled r
            :: group_ffill cols
                 (fun k' => if String.eqb k' k then filled else seen k') t'
      end
  end.

(** [df[cols] = df[cols].fillna(v)]. *)
Definition fillna {D} (cols : list NumCol) (v : float) (t : list (Row D))
  : list (Row D) :=
  map (fun r =>
         with_num (fun c => if col_in c cols && PrimFloat.is_nan (num r c)
                            then v else num r c) r) t.

(** Sorting.  [sort_by le] is a stable insertion sort; pandas' default
    sort kind leaves the relative order of equal keys unspecified, and
    nothing proved below depends on it. *)
Fixpoint insert_by {A} (le : A -> A -> bool) (x : A) (l : list A) : list A :=
  match l with
  | [] => [x]
  | y :: l' => if le x y then x :: y :: l' else y :: insert_by le x l'
  end.

Definition sort_by {A} (le : A -> A -> bool) (l : list A) : list A :=
  fold_right (insert_by le) [] l.

(** Key order of [sort_values(col)] on a datetime column: ascending, NaT
    last. *)
Definition date_le (a b : option Timestamp) : bool :=
  match a, b with
  | _, None => true
  | None, Some _ => false
  | Some x, Some y => (x <=? y)%Z
  end.

(** Key order of [sort_values(col, ascending=False)] on a float column:
    descending, NaN last. *)
Definition desc_le (a b : float) : bool :=
  if PrimFloat.is_nan b then true
  else if PrimFloat.is_nan a then false
  else PrimFloat.leb b a.

(** [GroupBy.last()] takes, column by column, the last entry of the group
    that is not missing, and a missing value when there is none. *)
Definition last_valid {A} (isna : A -> bool) (dflt : A) (l : list A) : A :=
  fold_left (fun acc x => if isna x then acc else x) l dflt.

Fixpoint somes {A} (l : list (option A)) : list A :=
  match l with
  | [] => []
  | Some x :: l' => x :: somes l'
  | None :: l' => somes l'
  end.

(** The group keys of [groupby('location')]: the distinct non-missing
    locations, in ascending order. *)
Definition group_keys (locs : list (option string)) : list string :=
  sort_by String.leb (nodup string_dec (somes locs)).

Definition in_group {A} (loc : A -> option string) (k : string) (x : A) : bool :=
  match loc x with
  | Some s => String.eqb s k
  | None => false
  end.

Definition last_row {D} (isna_date : D -> bool) (nat_date : D) (k : string)
           (g : list (Row D)) : Row D :=
  {| location := Some k;
     iso_code := last_valid isna_opt None (map iso_code g);
     date := last_valid isna_date nat_date (map date g);
     num := fun c => last_valid PrimFloat.is_nan nan (map (fun r => num r c) g);
     text := fun c => last_valid isna_opt None (map (fun r => text r c) g) |}.

(** [df.groupby('location').last()] (with or without [reset_index()]). *)
Definition groupby_last (t : Table) : Table :=
  map (fun k => last_row isna_opt None k (filter (in_group location k) t))
      (group_keys (map location t)).

Definition eloc (e : ERow) : option string := location (base e).

Definition last_erow (k : string) (g : list ERow) : ERow :=
  {| base := last_row isna_opt None k (map base g);
     death_rate := last_valid PrimFloat.is_nan nan (map death_rate g);
     cases_per_million := last_valid PrimFloat.is_nan nan (map cases_per_million g);
     deaths_per_million := last_valid PrimFloat.is_nan nan (map deaths_per_million g) |}.

Definition groupby_last_e (t : list ERow) : list ERow :=
  map (fun k => last_erow k (filter (in_group eloc k) t))
      (group_keys (map eloc t)).

(* ================================================================== *)
(** * The cleaner (lines 31-47) *)
(* ================================================================== *)

Definition countries_of_interest : list string :=
  ["Kenya"; "United States"; "India"; "Brazil"; "United Kingdom";
   "South Africa"; "Germany"; "China"; "Japan"; "Australia"].

Definition key_columns : list NumCol :=
  [total_cases; new_cases; total_deaths; new_deaths;
   total_vaccinations; people_vaccinated; people_fully_vaccinated].

(** Line 36: [df[df['location'].isin(countries_of_interest)]]. *)
Definition filter_countries (df : Table) : Table :=
  filter (fun r => isin countries_of_interest (location r)) df.

(** Lines 41-42: forward fill per location, then zero fill. *)
Definition fill_key_columns (t : Table) : Table :=
  fillna key_columns 0%float (group_ffill key_columns (fun _ _ => nan) t).

(** Lines 44-46. *)
Definition derive (r : Row (option Timestamp)) : ERow :=
  {| base := r;
     death_rate := (num r total_deaths / num r total_cases)%float;
     cases_per_million := (num r total_cases / num r population * 1e6)%float;
     deaths_per_million := (num r total_deaths / num r population * 1e6)%float |}.

(** Line 47: [dropna(subset=['date', 'location'])]. *)
Definition dropna_date_location (t : list ERow) : list ERow :=
  filter (fun e => notna_opt (date (base e)) && notna_opt (location (base e))) t.

(** [df_filtered] as it stands after line 46, and after line 47. *)
Definition enriched (df : Table) : list ERow :=
  map derive (fill_key_columns (filter_countries df)).

Definition Cleaner (df : Table) : list ERow :=
  dropna_date_location (enriched df).

(* ================================================================== *)
(** * The data behind the charts and maps (lines 53-151) *)
(* ================================================================== *)

(** What the script hands to the plotting calls of one panel. *)
Inductive Panel : Type :=
| LinePlot (title : string)
           (lines : list (string * list (option Timestamp * float)))
| BarPlot (title : string) (bars : list (option string * float)).

(** A written file, by name, with the data it was rendered from. *)
Inductive Artifact : Type :=
| Figure (file : string) (panels : list Panel)
| Choropleth (file : string) (title : string)
             (marks : list (option string * float * option string)).

Definition edate_le (a b : ERow) : bool := date_le (date (base a)) (date (base b)).
Definition rdate_le (a b : Row (option Timestamp)) : bool := date_le (date a) (date b).

(** [sort_values(col, ascending=False)] on the snapshot. *)
Definition sort_desc (metric : ERow -> float) (t : list ERow) : list ERow :=
  sort_by (fun a b => desc_le (metric a) (metric b)) t.

Definition pfv_per_hundred (e : ERow) : float :=
  num (base e) people_fully_vaccinated_per_hundred.

(** Line 80: [df_filtered.sort_values('date').groupby('location').last()]. *)
Definition latest_data (df_filtered : list ERow) : list ERow :=
  groupby_last_e (sort_by edate_le df_filtered).

(** Line 133: [df.sort_values('date').groupby('location').last().reset_index()]. *)
Definition latest_global (df : Table) : Table :=
  groupby_last (sort_by rdate_le df).

(** The four successive [sort_values] of lines 81, 90, 99 and 119: each
    sorts the table the previous one left in [latest_data]. *)
Definition by_death_rate (snap : list ERow) : list ERow :=
  sort_desc death_rate snap.
Definition by_cases_per_million (snap : list ERow) : list ERow :=
  sort_desc cases_per_million (by_death_rate snap).
Definition by_deaths_per_million (snap : list ERow) : list ERow :=
  sort_desc deaths_per_million (by_cases_per_million snap).
Definition latest_vaccination (snap : list ERow) : list ERow :=
  sort_desc pfv_per_hundred (by_deaths_per_million snap).

Definition bars_of (height : ERow -> float) (t : list ERow)
  : list (option string * float) :=
  map (fun e => (eloc e, height e)) t.

Definition country_data (df_filtered : list ERow) (country : string) : list ERow :=
  filter (in_group eloc country) df_filtered.

Section Charts.

(** [Series.rolling(7).mean()], whose floating-point summation is
    pandas' own. *)
Variable rolling_mean7 : list float -> list float.

Definition lines_of (y : list ERow -> list float) (df_filtered : list ERow)
  : list (string * list (option Timestamp * float)) :=
  map (fun country =>
         let cd := country_data df_filtered country in
         (country, combine (map (fun e => date (base e)) cd) (y cd)))
      countries_of_interest.

Definition panels (df_filtered : list ERow) : list Panel :=
  let snap := latest_data df_filtered in
  [ LinePlot "Total COVID-19 Cases Over Time"
      (lines_of (map (fun e => num (base e) total_cases)) df_filtered);
    LinePlot "Daily New Cases (7-day Average)"
      (lines_of (fun cd => rolling_mean7 (map (fun e => num (base e) new_cases) cd))
                df_filtered);
    BarPlot "Death Rates by Country (%)"
      (bars_of (fun e => (death_rate e * 100)%float) (by_death_rate snap));
    BarPlot "Cases Per Million Population"
      (bars_of cases_per_million (by_cases_per_million snap));
    BarPlot "Deaths Per Million Population"
      (bars_of deaths_per_million (by_deaths_per_million snap));
    LinePlot "Percentage Fully Vaccinated Over Time"
      (lines_of (map pfv_per_hundred) df_filtered);
    BarPlot "Percentage Fully Vaccinated"
      (bars_of pfv_per_hundred (latest_vaccination snap)) ].

Definition marks_of (metric : NumCol) (snap : Table)
  : list (option string * float * option string) :=
  map (fun r => (iso_code r, num r metric, location r)) snap.

Definition maps (df : Table) : list Artifact :=
  let snap := latest_global df in
  [ Choropleth "covid_cases_map.html"
      "Total COVID-19 Cases Per Million Population"
      (marks_of total_cases_per_million snap);
    Choropleth "covid_vaccination_map.html"
      "Percentage of Population Fully Vaccinated"
      (marks_of people_fully_vaccinated_per_hundred snap) ].

(* ================================================================ *)
(** * The whole run *)
(* ================================================================ *)

(** The surroundings of a run: the command line, the environment, and the
    file [owid-covid-data.csv] of the working directory ([None] when
    there is no such file).  The body of [main] reads the file only; what
    the interpreter and the imported libraries make of the command line
    and the environment is outside this model. *)
Record World : Type := mkWorld {
  argv : list string;
  environ : list (string * string);
  csv : option RawTable
}.

(** What a run leaves behind: the arguments of its [print] calls in
    order, the files written, and whether it ended by an exception. *)
Record Outcome : Type := mkOutcome {
  stdout : list string;
  written : list Artifact;
  raised : bool
}.

(** A text printed with a leading line feed, as in [print("\n...")]. *)
Definition para (s : string) : string := String "010"%char s.

Definition banner : list string :=
  [ "COVID-19 Global Data Analysis";
    "============================";
    para "Loading data..." ].

Definition not_found : list string :=
  [ "Error: Dataset file 'owid-covid-data.csv' not found.";
    "Please download it from Our World in Data and save it in the same directory." ].

Definition report : list string :=
  [ "Interactive maps saved as HTML files:";
    "- covid_cases_map.html";
    "- covid_vaccination_map.html";
    para "Key Insights:";
    "1. Vaccination Progress: Countries showed varying speeds in vaccination rollout.";
    "2. Case Trends: Different countries experienced waves at different times.";
    "3. Death Rates: Significant variation between countries (see visualization).";
    "4. Cases Per Million: Higher in densely populated countries.";
    "5. Global Disparities: Clear differences between developed and developing nations.";
    para "Analysis complete!" ].

(** The three branches are: no input file (lines 24-27); the date
    conversion of line 31 raising; and the run in which no call after
    line 31 fails.  A failure after line 31 (a column that is missing or
    not numeric, the renderers, a directory that cannot be written) is
    not modelled. *)
Definition main (w : World) : Outcome :=
  match csv w with
  | None =>
      {| stdout := banner ++ not_found; written := []; raised := false |}
  | Some raw =>
      let out := banner ++ ["Dataset successfully loaded!"; para "Cleaning data..."] in
      match to_datetime raw with
      | None => {| stdout := out; written := []; raised := true |}
      | Some df =>
          let df_filtered := Cleaner df in
          {| stdout := out ++ [ para "Generating visualizations...";
                                para "Visualizations saved as 'covid_analysis.png'";
                                para "Generating interactive world maps..." ]
                           ++ report;
             written := Figure "covid_analysis.png" (panels df_filtered) :: maps df;
             raised := false |}
      end
  end.

End Charts.

(** Does [hay] contain [needle]? *)
Fixpoint mentions (needle hay : string) : bool :=
  String.prefix needle hay
  || match hay with
     | EmptyString => false
     | String _ rest => mentions needle rest
     end.

Definition artifact_file (a : Artifact) : string :=
  match a with
  | Figure f _ => f
  | Choropleth f _ _ => f
  end.

(* ================================================================== *)
(** * Vocabulary of the statements *)
(* ================================================================== *)

(** The ten countries, written out. *)
Definition allowlist : list string :=
  ["Kenya"; "United States"; "India"; "Brazil"; "United Kingdom";
   "South Africa"; "Germany"; "China"; "Japan"; "Australia"].

Definition allowlisted (loc : option string) : Prop :=
  exists c, loc = Some c /\ In c allowlist.

(** The series of column [c] for location [k], in row order. *)
Definition series {D} (k : string) (c : NumCol) (t : list (Row D)) : list float :=
  map (fun r => num r c) (filter (in_group location k) t).

(** Forward fill of one series, starting from the value [carry]. *)
Fixpoint ffill_list (carry : float) (l : list float) : list float :=
  match l with
  | [] => []
  | v :: l' =>
      let v' := if PrimFloat.is_nan v then carry else v in
      v' :: ffill_list v' l'
  end.

(** Every cell of [l] at a position from [lo] to [hi] is missing. *)
Definition missing_between (l : list float) (lo hi : nat) : Prop :=
  forall j u, lo <= j <= hi -> nth_error l j = Some u -> PrimFloat.is_nan u = true.

(** Sample rows: population 1000, the given total cases, total deaths and
    percentage fully vaccinated, every other number missing. *)
Definition sample_num (tc td pfv : float) (c : NumCol) : float :=
  match c with
  | population => 1000%float
  | total_cases => tc
  | total_deaths => td
  | people_fully_vaccinated_per_hundred => pfv
  | _ => nan
  end.

Definition sample_row {D} (loc : string) (iso : string) (d : D) (tc td pfv : float)
  : Row D :=
  {| location := Some loc; iso_code := Some iso; date := d;
     num := sample_num tc td pfv; text := fun _ => None |}.

Definition sample_df : Table :=
  [ sample_row "Kenya" "KEN" (Some 1%Z) nan 0 10;
    sample_row "France" "FRA" (Some 1%Z) 5 1 1;
    sample_row "Kenya" "KEN" (Some 2%Z) 4 nan nan;
    sample_row "India" "IND" (Some 1%Z) 0 0 nan;
    sample_row "Kenya" "KEN" (Some 3%Z) nan 2 nan ].

(** The columns of the enriched table that hold numbers. *)
Inductive ECol : Type :=
| loaded (c : NumCol)
| col_death_rate
| col_cases_per_million
| col_deaths_per_million.

Definition ecell (col : ECol) (e : ERow) : float :=
  match col with
  | loaded c => num (base e) c
  | col_death_rate => death_rate e
  | col_cases_per_million => cases_per_million e
  | col_deaths_per_million => deaths_per_million e
  end.

(** [v] is the last valid cell of column [get] among the rows [g] taken in
    the order [le]: the cell of a row after which (strictly, in that
    order) the column is missing throughout, or the missing value [dflt]
    when the column is missing in every row of [g]. *)
Definition last_valid_cell {R A} (le : R -> R -> bool) (isna : A -> bool) (dflt : A)
           (get : R -> A) (g : list R) (v : A) : Prop :=
  (isna v = false /\
   exists r, In r g /\ get r = v /\
             forall r', In r' g -> le r' r = false -> isna (get r') = true)
  \/ (v = dflt /\ forall r, In r g -> isna (get r) = true).

(** [r] is a chronologically last row of its location in [t]. *)
Definition chronologically_last (t : list ERow) (r : ERow) : Prop :=
  In r t /\
  forall r', In r' t -> eloc r' = eloc r -> edate_le r' r = true.

(** The reading of the latest snapshot as a selection of rows: every
    entry of [snap] is a chronologically last row of [t]. *)
Definition snapshot_of_last_rows (t snap : list ERow) : Prop :=
  forall s, In s snap -> exists r, chronologically_last t r /\ s = r.

(** A loaded table whose only row is a row of Kenya with an empty date
    field. *)
Definition undated_raw : RawTable :=
  [ sample_row "Kenya" "KEN" DateBlank 1 0 nan ].

(** [r'] is [r] except possibly in the columns [cols]. *)
Definition same_outside {D} (cols : list NumCol) (r r' : Row D) : Prop :=
  location r' = location r /\
  iso_code r' = iso_code r /\
  date r' = date r /\
  (forall n, text r' n = text r n) /\
  (forall c, ~ In c cols -> num r' c = num r c).

(** Row [a] may stand before row [b] in a table sorted by [m] in
    descending order, missing values last: [b]'s value is missing, or
    both are valid and [b]'s is at most [a]'s. *)
Definition descending (m : ERow -> float) (a b : ERow) : Prop :=
  PrimFloat.is_nan (m b) = true
  \/ (PrimFloat.is_nan (m a) = false /\ PrimFloat.is_nan (m b) = false /\
      PrimFloat.leb (m b) (m a) = true).

(** The bars of the bar-chart panels of a figure, panel by panel. *)
Fixpoint bar_panels (ps : list Panel) : list (list (option string * float)) :=
  match ps with
  | [] => []
  | BarPlot _ bars :: ps' => bars :: bar_panels ps'
  | LinePlot _ _ :: ps' => bar_panels ps'
  end.

(** Two countries whose order by death rate is the reverse of their order
    by cases per million. *)
Definition crossing_df : Table :=
  [ sample_row "Kenya" "KEN" (Some 1%Z) 4 2 20;
    sample_row "India" "IND" (Some 1%Z) 10 1 30 ].



(** The lines of the line-chart panels of a figure, panel by panel. *)
Fixpoint line_panels (ps : list Panel)
  : list (list (string * list (option Timestamp * float))) :=
  match ps with
  | [] => []
  | LinePlot _ lines :: ps' => lines :: line_panels ps'
  | BarPlot _ _ :: ps' => line_panels ps'
  end.

(** The marks of a map (none for a figure). *)
Definition marks (a : Artifact) : list (option string * float * option string) :=
  match a with
  | Choropleth _ _ m => m
  | Figure _ _ => []
  end.

Definition mark_hover (m : option string * float * option string) : option string :=
  snd m.

Definition mark_iso (m : option string * float * option string) : option string :=
  fst (fst m).

(** The latest date among the rows [g]: [d] is the date of one of them
    and no dated row of [g] is later; [None] stands for "no row of [g]
    has a date". *)
Definition latest_date_of {R} (get : R -> option Timestamp) (g : list R)
           (v : option Timestamp) : Prop :=
  match v with
  | Some d =>
      (exists r, In r g /\ get r = Some d) /\
      (forall r d', In r g -> get r = Some d' -> (d' <= d)%Z)
  | None => forall r, In r g -> get r = None
  end.

(** Height [x] may stand before height [y] in a row of bars in
    descending order, missing heights last: [y] is missing, or both are
    valid and [y] is at most [x]. *)
Definition falls_to (x y : float) : Prop :=
  PrimFloat.is_nan y = true
  \/ (PrimFloat.is_nan x = false /\ PrimFloat.is_nan y = false /\
      PrimFloat.leb y x = true).

(** The bars of a panel, left to right, never rise: every bar is at least
    as high as every bar after it, bars without height last. *)
Definition bars_descend (bars : list (option string * float)) : Prop :=
  StronglySorted (fun a b => falls_to (snd a) (snd b)) bars.

(** Vocabulary for binary64 rounding, used to show that multiplying by
    100 keeps the order of two floats.  [rne V N] is [V / 2^N] rounded to
    the nearest integer, ties to even. *)
Definition rne (V N : Z) : Z :=
  let q := (V / 2 ^ N)%Z in
  let rem := (V mod 2 ^ N)%Z in
  match (2 * rem ?= 2 ^ N)%Z with
  | Lt => q
  | Eq => if Z.even q then q else (q + 1)%Z
  | Gt => (q + 1)%Z
  end.

(** The rounding position of a remainder [rem] below [two_k]. *)
Definition loc_of_rem (rem two_k : Z) : SpecFloat.location :=
  if (rem =? 0)%Z then loc_Exact else loc_Inexact (2 * rem ?= two_k)%Z.

(** What [k] right shifts of the mantissa [P] have produced. *)
Definition shr_inv (P k : Z) (rec : shr_record) : Prop :=
  exists q rem,
    (P = q * 2 ^ k + rem)%Z /\ (0 <= rem < 2 ^ k)%Z /\ (0 <= q)%Z /\
    shr_m rec = q /\ loc_of_shr_record rec = loc_of_rem rem (2 ^ k)%Z.

(** The binary64 number of sign [s], mantissa [q] and exponent [e], an
    infinity when the exponent is out of range. *)
Definition rounded (s : bool) (q e : Z) : spec_float :=
  match q with
  | 0%Z => S754_zero s
  | Zpos m => if (e <=? 971)%Z then S754_finite s m e else S754_infinity s
  | Zneg _ => S754_nan
  end.

(** The exponent binary64 gives to the value [P * 2^E]. *)
Definition cexp (P E : Z) : Z := Z.max (Zdigits2 P + E - 53) (-1074).

(** A mantissa and exponent in binary64's canonical form. *)
Definition canonical (q e : Z) : Prop :=
  (0 <= q < 2 ^ 53)%Z /\ (-1074 <= e)%Z /\ ((-1074 < e)%Z -> (2 ^ 52 <= q)%Z).

(** The float 100 = 7036874417766400 * 2^-46. *)
Definition m100 : positive := 7036874417766400.
Definition c100 : spec_float := S754_finite false m100 (-46).

(* ================================================================== *)
(** * Generic facts: sorting, filtering, last valid value *)
(* ================================================================== *)

Section SortBy.

Context {A : Type} (le : A -> A -> bool).

Lemma insert_by_perm (x : A) (l : list A) :
  Permutation (insert_by le x l) (x :: l).
Proof.
  induction l as [|y l IH]; simpl; [reflexivity|].
  destruct (le x y); [reflexivity|].
  rewrite IH. apply perm_swap.
Qed.

Lemma sort_by_perm (l : list A) : Permutation (sort_by le l) l.
Proof.
  induction l as [|x l IH]; simpl; [reflexivity|].
  rewrite insert_by_perm. now constructor.
Qed.

Lemma sort_by_In (l : list A) (x : A) : In x (sort_by le l) <-> In x l.
Proof.
  split; apply Permutation_in;
    [apply sort_by_perm | apply Permutation_sym, sort_by_perm].
Qed.

Hypothesis le_total : forall a b, le a b = true \/ le b a = true.

Lemma insert_by_sorted (x : A) (l : list A) :
  Sorted (fun a b => le a b = true) l ->
  Sorted (fun a b => le a b = true) (insert_by le x l).
Proof.
  induction 1 as [|y l Hs IH Hd]; simpl.
  - repeat constructor.
  - destruct (le x y) eqn:E.
    + constructor; [now constructor | now constructor].
    + constructor; [exact IH|].
      destruct (le_total x y) as [C|C]; [congruence|].
      destruct Hd as [|z l Hyz]; simpl; [now constructor|].
      destruct (le x z); now constructor.
Qed.

Lemma sort_by_sorted (l : list A) :
  Sorted (fun a b => le a b = true) (sort_by le l).
Proof.
  induction l as [|x l IH]; simpl; [constructor|].
  now apply insert_by_sorted.
Qed.

Hypothesis le_trans : forall a b c, le a b = true -> le b c = true -> le a c = true.

Lemma sort_by_strongly_sorted (l : list A) :
  StronglySorted (fun a b => le a b = true) (sort_by le l).
Proof.
  apply Sorted_StronglySorted; [|apply sort_by_sorted].
  intros a b c. apply le_trans.
Qed.

End SortBy.

Lemma filter_strongly_sorted {A} (R : A -> A -> Prop) (f : A -> bool) (l : list A) :
  StronglySorted R l -> StronglySorted R (filter f l).
Proof.
  induction 1 as [|x l Hs IH Hx]; simpl; [constructor|].
  destruct (f x); [|exact IH].
  constructor; [exact IH|].
  rewrite Forall_forall in *. intros y Hy. apply filter_In in Hy. now apply Hx.
Qed.

Lemma isin_spec (values : list string) (cell : option string) :
  isin values cell = true <-> exists c, cell = Some c /\ In c values.
Proof.
  destruct cell as [s|]; simpl.
  - rewrite existsb_exists. split.
    + intros (x & Hx & E). apply String.eqb_eq in E. subst. now exists x.
    + intros (c & [= <-] & Hc). exists s. split; [exact Hc | apply String.eqb_refl].
  - split; [discriminate | now intros (c & E & _)].
Qed.

Lemma group_ffill_location {D} cols seen (t : list (Row D)) :
  map location (group_ffill cols seen t) = map location t.
Proof.
  revert seen. induction t as [|r t IH]; intros seen; simpl; [reflexivity|].
  destruct (location r) eqn:E; simpl; now rewrite IH, E.
Qed.

Lemma fillna_location {D} cols v (t : list (Row D)) :
  map location (fillna cols v t) = map location t.
Proof. unfold fillna. rewrite map_map. reflexivity. Qed.

Lemma fill_key_columns_location (t : Table) :
  map location (fill_key_columns t) = map location t.
Proof.
  unfold fill_key_columns. now rewrite fillna_location, group_ffill_location.
Qed.

Lemma enriched_location (df : Table) :
  map eloc (enriched df) = map location (filter_countries df).
Proof.
  unfold enriched. rewrite map_map. unfold eloc. simpl.
  apply fill_key_columns_location.
Qed.

(* ================================================================== *)
(** * The run without its input file *)
(* ================================================================== *)

(** C1.  When [owid-covid-data.csv] is absent from the working directory,
    the run returns normally (no exception) right after two lines that
    name the expected file and where to get it, prints none of the later
    progress lines, and writes no file: in particular none of
    [covid_analysis.png], [covid_cases_map.html] and
    [covid_vaccination_map.html]. *)
Theorem main_missing_input
  (rolling : list float -> list float)
  (args : list string) (env : list (string * string)) :
  let out := main rolling {| argv := args; environ := env; csv := None |} in
  raised out = false /\
  written out = [] /\
  (forall f, In f ["covid_analysis.png"; "covid_cases_map.html";
                   "covid_vaccination_map.html"] ->
             ~ In f (map artifact_file (written out))) /\
  stdout out =
    [ "COVID-19 Global Data Analysis";
      "============================";
      para "Loading data...";
      "Error: Dataset file 'owid-covid-data.csv' not found.";
      "Please download it from Our World in Data and save it in the same directory." ] /\
  existsb (mentions "owid-covid-data.csv") (stdout out) = true /\
  existsb (mentions "Our World in Data") (stdout out) = true.
Proof.
  cbv zeta. unfold main. simpl csv. cbn [raised written stdout].
  repeat split; try reflexivity.
  intros f _ [].
Qed.

(* ================================================================== *)
(** * The allowlist filter *)
(* ================================================================== *)

(** C2.  For every table, the rows kept by the allowlist filter are
    exactly the rows of the input whose location is one of the ten listed
    countries, and every row of the cleaned table has such a location: no
    row with a location outside the list (or without one) is in it. *)
Theorem filtered_rows_allowlisted (df : Table) :
  (forall r, In r (filter_countries df) <->
             In r df /\ allowlisted (location r)) /\
  Forall (fun e => allowlisted (eloc e)) (Cleaner df).
Proof.
  split.
  - intros r. unfold filter_countries. rewrite filter_In.
    now rewrite (isin_spec countries_of_interest).
  - apply Forall_forall. intros e He.
    unfold Cleaner, dropna_date_location in He. apply filter_In in He as [He _].
    apply (in_map eloc) in He. rewrite enriched_location in He.
    apply in_map_iff in He as (r & <- & Hr).
    unfold filter_countries in Hr. apply filter_In in Hr as [_ Hr].
    now apply (isin_spec countries_of_interest).
Qed.

(* ================================================================== *)
(** * Forward fill and zero fill of the key counters *)
(* ================================================================== *)

Lemma col_in_true (c : NumCol) (cols : list NumCol) :
  In c cols -> col_in c cols = true.
Proof. intros H. unfold col_in. now destruct (in_dec NumCol_eq_dec c cols). Qed.

Lemma col_in_false (c : NumCol) (cols : list NumCol) :
  ~ In c cols -> col_in c cols = false.
Proof. intros H. unfold col_in. now destruct (in_dec NumCol_eq_dec c cols). Qed.

Lemma series_cons {D} (k : string) (c : NumCol) (r : Row D) (t : list (Row D)) :
  series k c (r :: t)
  = if in_group location k r then num r c :: series k c t else series k c t.
Proof. unfold series. simpl. now destruct (in_group location k r). Qed.

Lemma in_group_with_num {D} (k : string) (f : NumCol -> float) (r : Row D) :
  in_group location k (with_num f r) = in_group location k r.
Proof. reflexivity. Qed.

(** Group-wise forward fill acts on each location's series on its own. *)
Lemma series_group_ffill {D} (cols : list NumCol) (k : string) (c : NumCol) :
  In c cols ->
  forall (t : list (Row D)) (seen : string -> NumCol -> float),
    series k c (group_ffill cols seen t) = ffill_list (seen k c) (series k c t).
Proof.
  intros Hc. induction t as [|r t IH]; intros seen; [reflexivity|].
  simpl group_ffill. destruct (location r) as [k0|] eqn:E;
    rewrite !series_cons, in_group_with_num; unfold in_group; rewrite E.
  - destruct (String.eqb k0 k) eqn:Ek.
    + apply String.eqb_eq in Ek. subst k0. simpl.
      rewrite (col_in_true _ _ Hc). simpl. f_equal.
      rewrite IH, String.eqb_refl, (col_in_true _ _ Hc). reflexivity.
    + rewrite IH. now rewrite String.eqb_sym, Ek.
  - apply IH.
Qed.

Lemma series_fillna {D} (cols : list NumCol) (v : float) (k : string) (c : NumCol)
      (t : list (Row D)) :
  In c cols ->
  series k c (fillna cols v t)
  = map (fun x => if PrimFloat.is_nan x then v else x) (series k c t).
Proof.
  intros Hc. induction t as [|r t IH]; [reflexivity|].
  unfold fillna in *. simpl map at 1.
  rewrite !series_cons, in_group_with_num.
  destruct (in_group location k r); [|exact IH].
  simpl. rewrite (col_in_true _ _ Hc). simpl. now f_equal.
Qed.

Lemma ffill_list_length (l : list float) :
  forall carry, List.length (ffill_list carry l) = List.length l.
Proof. induction l as [|v l IH]; intros carry; simpl; [reflexivity|]. now rewrite IH. Qed.

(** A forward-filled cell is the last valid cell at or before its
    position, or the initial carry when every cell so far is missing. *)
Lemma ffill_list_nth (l : list float) :
  forall carry i v,
    nth_error (ffill_list carry l) i = Some v ->
    (exists j, j <= i /\ nth_error l j = Some v /\ PrimFloat.is_nan v = false /\
               missing_between l (S j) i)
    \/ (v = carry /\ missing_between l 0 i).
Proof.
  induction l as [|x l IH]; intros carry i v H.
  - destruct i; discriminate.
  - destruct i as [|i]; simpl in H.
    + injection H as <-. destruct (PrimFloat.is_nan x) eqn:Ex.
      * right. split; [reflexivity|]. intros j u Hj Hu.
        assert (j = 0) by lia. subst j. simpl in Hu. congruence.
      * left. exists 0. repeat split; auto. intros j u Hj. lia.
    + apply IH in H as [(j & Hj & Hv & Hn & Hm) | [Hv Hm]].
      * left. exists (S j). repeat split; auto; [lia|].
        intros j' u Hj' Hu. destruct j' as [|j']; [lia|].
        apply (Hm j' u); [lia | exact Hu].
      * destruct (PrimFloat.is_nan x) eqn:Ex.
        -- right. split; [exact Hv|]. intros j u Hj Hu.
           destruct j as [|j]; simpl in Hu; [congruence|].
           apply (Hm j u); [lia | exact Hu].
        -- left. exists 0. subst v. repeat split; auto; [lia|].
           intros j u Hj Hu. destruct j as [|j]; [lia|].
           apply (Hm j u); [lia | exact Hu].
Qed.

Lemma Cleaner_rows (df : Table) (e : ERow) :
  In e (Cleaner df) ->
  exists r, In r (fill_key_columns (filter_countries df)) /\ e = derive r.
Proof.
  unfold Cleaner, dropna_date_location, enriched. intros H.
  apply filter_In in H as [H _]. apply in_map_iff in H as (r & <- & Hr).
  now exists r.
Qed.

(** C3.  For each of the seven key counters and each location, take the
    counter's series in source row order before and after the fill step.
    They have the same length; after the fill no cell is missing; a cell
    at or after the first valid cell holds the most recent valid value at
    or before its position, and a cell before the first valid one holds
    zero.  The rows of the cleaned table carry these filled counters. *)
Theorem key_counters_filled (df : Table) (k : string) (c : NumCol) :
  In c key_columns ->
  let before := series k c (filter_countries df) in
  let after := series k c (fill_key_columns (filter_countries df)) in
  List.length after = List.length before /\
  (forall i v, nth_error after i = Some v ->
     PrimFloat.is_nan v = false /\
     ((exists j, j <= i /\ nth_error before j = Some v /\
                 missing_between before (S j) i)
      \/ (v = 0%float /\ missing_between before 0 i))) /\
  Forall (fun e => In (base e) (fill_key_columns (filter_countries df)))
         (Cleaner df).
Proof.
  intros Hc before after.
  assert (Ha : after = map (fun x => if PrimFloat.is_nan x then 0%float else x)
                           (ffill_list nan before)).
  { unfold after, fill_key_columns.
    rewrite (series_fillna _ _ _ _ _ Hc).
    now rewrite (series_group_ffill _ _ _ Hc). }
  split; [|split].
  - rewrite Ha, length_map. apply ffill_list_length.
  - intros i v Hv. rewrite Ha, nth_error_map in Hv.
    destruct (nth_error (ffill_list nan before) i) as [w|] eqn:Ew; [|discriminate].
    injection Hv as <-.
    apply ffill_list_nth in Ew as [(j & Hj & Hw & Hn & Hm) | [-> Hm]].
    + rewrite Hn. split; [exact Hn|]. left. now exists j.
    + split; [reflexivity|]. right. split; [reflexivity | exact Hm].
  - apply Forall_forall. intros e He.
    apply Cleaner_rows in He as (r & Hr & ->). exact Hr.
Qed.

Lemma key_counters_filled_witness :
  let before := series "Kenya" total_cases (filter_countries sample_df) in
  let after :=
    series "Kenya" total_cases (fill_key_columns (filter_countries sample_df)) in
  before = [nan; 4%float; nan] /\ after = [0%float; 4%float; 4%float] /\
  List.length after = List.length before.
Proof.
  split; [reflexivity|]. split; [reflexivity|].
  apply (key_counters_filled sample_df "Kenya" total_cases).
  simpl. auto.
Defined.

(* ================================================================== *)
(** * The derived columns *)
(* ================================================================== *)

(** C4.  In every row of the enriched table the three derived columns are
    given by the stated formulas on that row's own (filled) total deaths,
    total cases and population; hence two rows, of any two runs, that
    agree on these three cells agree on the three derived cells. *)
Theorem derived_columns_pure (df : Table) :
  Forall (fun e =>
            death_rate e
            = (num (base e) total_deaths / num (base e) total_cases)%float /\
            cases_per_million e
            = (num (base e) total_cases / num (base e) population * 1e6)%float /\
            deaths_per_million e
            = (num (base e) total_deaths / num (base e) population * 1e6)%float)
         (Cleaner df) /\
  (forall df' e e',
      In e (Cleaner df) -> In e' (Cleaner df') ->
      num (base e) total_deaths = num (base e') total_deaths ->
      num (base e) total_cases = num (base e') total_cases ->
      num (base e) population = num (base e') population ->
      death_rate e = death_rate e' /\
      cases_per_million e = cases_per_million e' /\
      deaths_per_million e = deaths_per_million e').
Proof.
  split.
  - apply Forall_forall. intros e He.
    apply Cleaner_rows in He as (r & _ & ->). simpl. auto.
  - intros df' e e' He He' Hd Hc Hp.
    apply Cleaner_rows in He as (r & _ & ->).
    apply Cleaner_rows in He' as (r' & _ & ->).
    simpl in *. rewrite Hd, Hc, Hp. auto.
Qed.

(* ================================================================== *)
(** * The latest snapshots *)
(* ================================================================== *)

Lemma date_le_total (a b : option Timestamp) :
  date_le a b = true \/ date_le b a = true.
Proof.
  destruct a as [x|], b as [y|]; simpl; auto.
  destruct (Z.leb_spec x y); [now left | right; apply Z.leb_le; lia].
Qed.

Lemma date_le_trans (a b c : option Timestamp) :
  date_le a b = true -> date_le b c = true -> date_le a c = true.
Proof.
  destruct a as [x|], b as [y|], c as [z|]; simpl; try easy.
  rewrite !Z.leb_le. lia.
Qed.

Lemma somes_In {A} (l : list (option A)) (x : A) : In x (somes l) <-> In (Some x) l.
Proof.
  induction l as [|[y|] l IH]; simpl; [tauto | |].
  - rewrite IH. split; intros [H|H]; auto; left; congruence.
  - rewrite IH. split; [auto | intros [H|H]; [discriminate | exact H]].
Qed.

Lemma group_keys_In (locs : list (option string)) (k : string) :
  In k (group_keys locs) <-> In (Some k) locs.
Proof. unfold group_keys. now rewrite sort_by_In, nodup_In, somes_In. Qed.

Lemma group_keys_NoDup (locs : list (option string)) : NoDup (group_keys locs).
Proof.
  unfold group_keys.
  apply (Permutation_NoDup (Permutation_sym (sort_by_perm _ _))).
  apply NoDup_nodup.
Qed.

Lemma in_group_spec {A} (loc : A -> option string) (k : string) (x : A) :
  in_group loc k x = true <-> loc x = Some k.
Proof.
  unfold in_group. destruct (loc x) as [s|]; [|easy].
  rewrite String.eqb_eq. split; congruence.
Qed.

Section LastValid.

Context {R A : Type} (le : R -> R -> bool) (isna : A -> bool) (dflt : A)
        (get : R -> A).

Lemma last_valid_split (g : list R) :
  forall d,
    (exists g1 r g2, g = g1 ++ r :: g2 /\ isna (get r) = false /\
                     Forall (fun r' => isna (get r') = true) g2 /\
                     last_valid isna d (map get g) = get r)
    \/ (Forall (fun r' => isna (get r') = true) g /\
        last_valid isna d (map get g) = d).
Proof.
  unfold last_valid. induction g as [|x g IH]; intros d; simpl.
  - right. split; [constructor | reflexivity].
  - destruct (IH (if isna (get x) then d else get x))
      as [(g1 & r & g2 & -> & Hr & Hg2 & E) | [Hall E]].
    + left. exists (x :: g1), r, g2. repeat split; assumption.
    + destruct (isna (get x)) eqn:Ex.
      * right. split; [now constructor | exact E].
      * left. exists [], x, g. repeat split; assumption.
Qed.

Hypothesis le_total : forall a b, le a b = true \/ le b a = true.

Lemma last_valid_sorted (g : list R) :
  StronglySorted (fun a b => le a b = true) g ->
  last_valid_cell le isna dflt get g (last_valid isna dflt (map get g)).
Proof.
  intros Hs.
  destruct (last_valid_split g dflt)
    as [(g1 & r & g2 & -> & Hr & Hg2 & E) | [Hall E]]; rewrite E.
  - left. split; [exact Hr|]. exists r. split; [|split; [reflexivity|]].
    + apply in_or_app. right. now left.
    + intros r' Hin Hle. apply in_app_or in Hin as [Hin | [<- | Hin]].
      * exfalso. clear E Hg2. induction g1 as [|y g1 IH]; [contradiction|].
        simpl in Hs. apply StronglySorted_inv in Hs as [Hs Hy].
        destruct Hin as [-> | Hin]; [|now apply IH].
        rewrite Forall_forall in Hy.
        assert (le r' r = true) by (apply Hy, in_or_app; right; now left).
        congruence.
      * destruct (le_total r r); congruence.
      * rewrite Forall_forall in Hg2. now apply Hg2.
  - right. split; [reflexivity|]. now apply Forall_forall.
Qed.

Lemma last_valid_cell_ext (g g' : list R) (v : A) :
  (forall r, In r g <-> In r g') ->
  last_valid_cell le isna dflt get g v -> last_valid_cell le isna dflt get g' v.
Proof.
  intros Hgg [(Hv & r & Hr & E & Hafter) | [E Hall]].
  - left. split; [exact Hv|]. exists r. split; [now apply Hgg|]. split; [exact E|].
    intros r' Hr'. apply Hafter. now apply Hgg.
  - right. split; [exact E|]. intros r Hr. apply Hall. now apply Hgg.
Qed.

(** Where a last row of [g] has a valid cell, that cell is the last
    valid one. *)
Lemma last_valid_cell_latest (g : list R) (v : A) (r0 : R) :
  last_valid_cell le isna dflt get g v ->
  In r0 g -> isna (get r0) = false ->
  (forall r', In r' g -> le r0 r' = true -> get r' = get r0) ->
  v = get r0.
Proof.
  intros [(Hv & r & Hr & <- & Hafter) | [_ Hall]] H0 Hna Hlast.
  - destruct (le r0 r) eqn:E; [now apply Hlast|].
    rewrite (Hafter r0 H0 E) in Hna. discriminate.
  - rewrite (Hall r0 H0) in Hna. discriminate.
Qed.

End LastValid.

Lemma sorted_group {A} (le : A -> A -> bool) (loc : A -> option string)
      (k : string) (t : list A) :
  (forall a b, le a b = true \/ le b a = true) ->
  (forall a b c, le a b = true -> le b c = true -> le a c = true) ->
  StronglySorted (fun a b => le a b = true) (filter (in_group loc k) (sort_by le t))
  /\ forall r, In r (filter (in_group loc k) (sort_by le t)) <-> In r t /\ loc r = Some k.
Proof.
  intros Ht Hr. split.
  - apply filter_strongly_sorted. now apply sort_by_strongly_sorted.
  - intros r. now rewrite filter_In, sort_by_In, in_group_spec.
Qed.

Lemma edate_le_total (a b : ERow) : edate_le a b = true \/ edate_le b a = true.
Proof. apply date_le_total. Qed.

Lemma edate_le_trans (a b c : ERow) :
  edate_le a b = true -> edate_le b c = true -> edate_le a c = true.
Proof. apply date_le_trans. Qed.

Lemma rdate_le_total (a b : Row (option Timestamp)) :
  rdate_le a b = true \/ rdate_le b a = true.
Proof. apply date_le_total. Qed.

Lemma rdate_le_trans (a b c : Row (option Timestamp)) :
  rdate_le a b = true -> rdate_le b c = true -> rdate_le a c = true.
Proof. apply date_le_trans. Qed.

Lemma ecell_last_erow (col : ECol) (k : string) (g : list ERow) :
  ecell col (last_erow k g) = last_valid PrimFloat.is_nan nan (map (ecell col) g).
Proof. destruct col; simpl; [now rewrite map_map | reflexivity ..]. Qed.

(** The rows of a location [k] in [t]. *)
Lemma latest_data_rows (t : list ERow) (s : ERow) (k : string) :
  In s (latest_data t) -> eloc s = Some k ->
  s = last_erow k (filter (in_group eloc k) (sort_by edate_le t)).
Proof.
  unfold latest_data, groupby_last_e. intros H E.
  apply in_map_iff in H as (k' & <- & _). unfold eloc in E. simpl in E.
  now injection E as ->.
Qed.

Lemma latest_global_rows (df : Table) (s : Row (option Timestamp)) (k : string) :
  In s (latest_global df) -> location s = Some k ->
  s = last_row isna_opt None k (filter (in_group location k) (sort_by rdate_le df)).
Proof.
  unfold latest_global, groupby_last. intros H E.
  apply in_map_iff in H as (k' & <- & _). simpl in E.
  now injection E as ->.
Qed.

Lemma NoDup_map_Some {A} (l : list A) : NoDup l -> NoDup (map Some l).
Proof.
  induction 1 as [|x l Hx Hl IH]; simpl; constructor; [|exact IH].
  intros H. apply in_map_iff in H as (y & [= ->] & Hy). contradiction.
Qed.

Lemma group_keys_sorted_input {A} (le : A -> A -> bool) (loc : A -> option string)
      (t : list A) (k : string) :
  In k (group_keys (map loc (sort_by le t))) <-> In (Some k) (map loc t).
Proof.
  rewrite group_keys_In, !in_map_iff.
  split; intros (r & E & Hr); exists r; (split; [exact E|]);
    now apply (sort_by_In le).
Qed.

(** The chronologically last row of Kenya in [sample_df] has no
    vaccination percentage, the snapshot has the one of two rows before. *)
Lemma latest_data_not_last_rows :
  ~ snapshot_of_last_rows (Cleaner sample_df) (latest_data (Cleaner sample_df)).
Proof.
  intros H.
  pose (f := fun e => (eloc e, date (base e), PrimFloat.is_nan (pfv_per_hundred e))).
  assert (Hsnap : In (Some "Kenya", Some 3%Z, false)
                     (map f (latest_data (Cleaner sample_df)))).
  { vm_compute. auto. }
  apply in_map_iff in Hsnap as (s & Hfs & Hs).
  destruct (H s Hs) as (r & [Hr Hlast] & ->).
  assert (Hrows : map f (Cleaner sample_df)
                  = [ (Some "Kenya", Some 1%Z, false);
                      (Some "Kenya", Some 2%Z, true);
                      (Some "India", Some 1%Z, true);
                      (Some "Kenya", Some 3%Z, true) ]) by reflexivity.
  apply (in_map f) in Hr. rewrite Hrows, Hfs in Hr.
  simpl in Hr. intuition discriminate.
Qed.

(** C5 (amended).  Each latest snapshot has exactly one entry for each
    location of its table (rows without location excepted), and every
    cell of an entry is the last valid cell of its column among the rows
    of that location taken in date order, undated rows last: the cell of
    a row after which the column is missing throughout, or a missing
    value when the column is missing in all of them.  So an entry has the
    cell of the location's last row in every column where that row has a
    value (and the rows not before it in date order agree with it).  This
    holds for the snapshot of the filtered table behind the bar charts
    (loaded and derived number columns) and for the snapshot of the whole
    table behind the maps (number columns and the ISO code). *)
Theorem latest_snapshots_hold_last_valid_cells :
  (forall t : list ERow,
      NoDup (map eloc (latest_data t)) /\
      (forall loc, In loc (map eloc (latest_data t)) <->
                   loc <> None /\ In loc (map eloc t)) /\
      (forall s k col,
          In s (latest_data t) -> eloc s = Some k ->
          last_valid_cell edate_le PrimFloat.is_nan nan (ecell col)
                          (filter (in_group eloc k) t) (ecell col s)) /\
      (forall s k col r0,
          In s (latest_data t) -> eloc s = Some k ->
          In r0 (filter (in_group eloc k) t) ->
          PrimFloat.is_nan (ecell col r0) = false ->
          (forall r', In r' (filter (in_group eloc k) t) ->
                      edate_le r0 r' = true -> ecell col r' = ecell col r0) ->
          ecell col s = ecell col r0))
  /\
  (forall df : Table,
      NoDup (map location (latest_global df)) /\
      (forall loc, In loc (map location (latest_global df)) <->
                   loc <> None /\ In loc (map location df)) /\
      (forall s k,
          In s (latest_global df) -> location s = Some k ->
          (forall c, last_valid_cell rdate_le PrimFloat.is_nan nan
                                     (fun r => num r c)
                                     (filter (in_group location k) df) (num s c)) /\
          last_valid_cell rdate_le isna_opt None iso_code
                          (filter (in_group location k) df) (iso_code s)) /\
      (forall s k c r0,
          In s (latest_global df) -> location s = Some k ->
          In r0 (filter (in_group location k) df) ->
          PrimFloat.is_nan (num r0 c) = false ->
          (forall r', In r' (filter (in_group location k) df) ->
                      rdate_le r0 r' = true -> num r' c = num r0 c) ->
          num s c = num r0 c)).
Proof.
  split.
  - intros t.
    assert (Hk : map eloc (latest_data t)
                 = map Some (group_keys (map eloc (sort_by edate_le t)))).
    { unfold latest_data, groupby_last_e. now rewrite map_map. }
    assert (LV : forall s k col,
               In s (latest_data t) -> eloc s = Some k ->
               last_valid_cell edate_le PrimFloat.is_nan nan (ecell col)
                               (filter (in_group eloc k) t) (ecell col s)).
    { intros s k col Hs E.
      rewrite (latest_data_rows t s k Hs E), ecell_last_erow.
      destruct (sorted_group edate_le eloc k t edate_le_total edate_le_trans)
        as [Hsorted Hmem].
      apply (last_valid_cell_ext _ _ _ _ (filter (in_group eloc k) (sort_by edate_le t))).
      - intros r. now rewrite Hmem, filter_In, in_group_spec.
      - apply last_valid_sorted; [exact edate_le_total | exact Hsorted]. }
    split; [|split; [|split]].
    + rewrite Hk. apply NoDup_map_Some, group_keys_NoDup.
    + intros loc. rewrite Hk, in_map_iff. split.
      * intros (k & <- & Hin). split; [discriminate|].
        now apply (group_keys_sorted_input edate_le eloc).
      * intros [Hne Hin]. destruct loc as [k|]; [|contradiction].
        exists k. split; [reflexivity|].
        now apply (group_keys_sorted_input edate_le eloc).
    + exact LV.
    + intros s k col r0 Hs E H0 Hna Hlast.
      exact (last_valid_cell_latest _ _ _ _ _ _ _ (LV s k col Hs E) H0 Hna Hlast).
  - intros df.
    assert (Hk : map location (latest_global df)
                 = map Some (group_keys (map location (sort_by rdate_le df)))).
    { unfold latest_global, groupby_last. now rewrite map_map. }
    assert (LV : forall s k,
               In s (latest_global df) -> location s = Some k ->
               (forall c, last_valid_cell rdate_le PrimFloat.is_nan nan
                                          (fun r => num r c)
                                          (filter (in_group location k) df) (num s c)) /\
               last_valid_cell rdate_le isna_opt None iso_code
                               (filter (in_group location k) df) (iso_code s)).
    { intros s k Hs E.
      rewrite (latest_global_rows df s k Hs E).
      destruct (sorted_group rdate_le location k df rdate_le_total rdate_le_trans)
        as [Hsorted Hmem].
      assert (Hext : forall r, In r (filter (in_group location k) (sort_by rdate_le df))
                               <-> In r (filter (in_group location k) df)).
      { intros r. now rewrite Hmem, filter_In, in_group_spec. }
      split; [intros c|]; simpl;
        (eapply last_valid_cell_ext; [exact Hext|]);
        (apply last_valid_sorted; [exact rdate_le_total | exact Hsorted]). }
    split; [|split; [|split]].
    + rewrite Hk. apply NoDup_map_Some, group_keys_NoDup.
    + intros loc. rewrite Hk, in_map_iff. split.
      * intros (k & <- & Hin). split; [discriminate|].
        now apply (group_keys_sorted_input rdate_le location).
      * intros [Hne Hin]. destruct loc as [k|]; [|contradiction].
        exists k. split; [reflexivity|].
        now apply (group_keys_sorted_input rdate_le location).
    + exact LV.
    + intros s k c r0 Hs E H0 Hna Hlast.
      destruct (LV s k Hs E) as [Hnum _].
      exact (last_valid_cell_latest _ _ _ _ _ _ _ (Hnum c) H0 Hna Hlast).
Qed.

(* ================================================================== *)
(** * What the cleaner leaves alone, and the final [dropna] *)
(* ================================================================== *)

Lemma group_ffill_frame {D} (cols : list NumCol) (t : list (Row D)) :
  forall seen, Forall2 (same_outside cols) t (group_ffill cols seen t).
Proof.
  induction t as [|r t IH]; intros seen; simpl; [constructor|].
  destruct (location r) eqn:E; (constructor; [|apply IH]);
    (do 4 (split; [reflexivity|]); intros c Hc; cbn [num with_num];
     now rewrite (col_in_false _ _ Hc)).
Qed.

Lemma Forall2_map_right {A B} (R : A -> B -> Prop) (g : B -> B) (l : list A) (u : list B) :
  (forall a b, R a b -> R a (g b)) -> Forall2 R l u -> Forall2 R l (map g u).
Proof. intros Hg. induction 1; simpl; constructor; auto. Qed.

Lemma fill_key_columns_frame (t : Table) :
  Forall2 (same_outside key_columns) t (fill_key_columns t).
Proof.
  unfold fill_key_columns, fillna.
  apply Forall2_map_right; [|apply group_ffill_frame].
  intros a b (Hl & Hi & Hd & Ht & Hn).
  split; [exact Hl|]. split; [exact Hi|]. split; [exact Hd|]. split; [exact Ht|].
  intros c Hc. cbn [num with_num]. rewrite (col_in_false _ _ Hc). now apply Hn.
Qed.

Lemma Forall2_filter {A B} (R : A -> B -> Prop) (p : A -> bool) (q : B -> bool)
      (l : list A) (u : list B) :
  Forall2 (fun a b => R a b /\ p a = q b) l u ->
  Forall2 R (filter p l) (filter q u).
Proof.
  induction 1 as [|a b l u [Hab Hpq] _ IH]; simpl; [constructor|].
  rewrite <- Hpq. destruct (p a); [now constructor | exact IH].
Qed.

Lemma Forall2_strengthen {A B} (R : A -> B -> Prop) (P : A -> Prop)
      (l : list A) (u : list B) :
  Forall P l -> Forall2 R l u -> Forall2 (fun a b => R a b /\ P a) l u.
Proof.
  intros HP H. induction H; [constructor|].
  apply Forall_cons_iff in HP as [Hx HP]. constructor; auto.
Qed.

Lemma filter_countries_located (df : Table) :
  Forall (fun r => notna_opt (location r) = true) (filter_countries df).
Proof.
  apply Forall_forall. intros r Hr. apply filter_In in Hr as [_ Hr].
  apply isin_spec in Hr as (c & -> & _). reflexivity.
Qed.

Lemma map_base_dropna (u : Table) :
  map base (dropna_date_location (map derive u))
  = filter (fun r => notna_opt (date r) && notna_opt (location r)) u.
Proof.
  unfold dropna_date_location. induction u as [|r u IH]; [reflexivity|].
  simpl. destruct (notna_opt (date r) && notna_opt (location r)); simpl; now rewrite IH.
Qed.

Lemma filter_all {A} (f : A -> bool) (l : list A) :
  filter f l = l <-> Forall (fun x => f x = true) l.
Proof.
  split.
  - intros E. apply Forall_forall. intros x Hx. rewrite <- E in Hx.
    now apply filter_In in Hx.
  - induction 1 as [|x l Hx _ IH]; simpl; [reflexivity|]. now rewrite Hx, IH.
Qed.

Lemma enriched_located (df : Table) :
  Forall (fun e => notna_opt (eloc e) = true) (enriched df).
Proof.
  apply Forall_forall. intros e He. apply (in_map eloc) in He.
  rewrite enriched_location in He. apply in_map_iff in He as (r & <- & Hr).
  pose proof (filter_countries_located df) as H. rewrite Forall_forall in H. auto.
Qed.

Lemma enriched_dates (df : Table) :
  map (fun e => date (base e)) (enriched df) = map date (filter_countries df).
Proof.
  unfold enriched. rewrite map_map. simpl.
  pose proof (fill_key_columns_frame (filter_countries df)) as H.
  induction H as [|a b l u (_ & _ & Hd & _) _ IH]; simpl; [reflexivity|].
  now rewrite Hd, IH.
Qed.

(** An empty date field passes the date conversion and the allowlist
    filter, and the final [dropna] then removes the row. *)
Lemma dropna_removes_undated_row :
  exists df, to_datetime undated_raw = Some df /\ Cleaner df <> enriched df.
Proof.
  eexists. split; [reflexivity|].
  intros E. apply (f_equal (@List.length ERow)) in E. discriminate E.
Qed.

(** C6 (amended).  The final [dropna] removes exactly the rows of the
    filtered, enriched table whose date is missing (NaT): it never removes
    a row for its location, which the allowlist filter has already
    guaranteed.  It leaves the table unchanged if and only if every row of
    the input with an allowlisted location has a date. *)
Theorem dropna_drops_undated_rows (df : Table) :
  Cleaner df = filter (fun e => notna_opt (date (base e))) (enriched df) /\
  Forall (fun e => allowlisted (eloc e)) (enriched df) /\
  (Cleaner df = enriched df <->
   forall r, In r df -> allowlisted (location r) -> date r <> None).
Proof.
  split; [|split].
  - unfold Cleaner, dropna_date_location. apply filter_ext_in. intros e He.
    pose proof (enriched_located df) as H. rewrite Forall_forall in H.
    unfold eloc in H. rewrite (H e He). apply andb_true_r.
  - apply Forall_forall. intros e He. apply (in_map eloc) in He.
    rewrite enriched_location in He. apply in_map_iff in He as (r & <- & Hr).
    apply filter_In in Hr as [_ Hr]. now apply (isin_spec countries_of_interest).
  - unfold Cleaner, dropna_date_location. rewrite filter_all, Forall_forall. split.
    + intros H r Hr Ha Hd.
      assert (Hin : In (date r) (map date (filter_countries df))).
      { apply in_map, filter_In. split; [exact Hr|].
        now apply (isin_spec countries_of_interest). }
      rewrite <- enriched_dates in Hin. apply in_map_iff in Hin as (e & He & Hin).
      apply H in Hin. rewrite He, Hd in Hin. discriminate.
    + intros H e He.
      pose proof (enriched_located df) as Hl. rewrite Forall_forall in Hl.
      unfold eloc in Hl. rewrite (Hl e He), andb_true_r.
      assert (Hin : In (date (base e)) (map date (filter_countries df))).
      { rewrite <- enriched_dates. now apply (in_map (fun e => date (base e))). }
      apply in_map_iff in Hin as (r & Hd & Hr). apply filter_In in Hr as [Hr Ha].
      apply (isin_spec countries_of_interest) in Ha.
      specialize (H r Hr Ha). rewrite <- Hd. now destruct (date r).
Qed.

Lemma fill_key_columns_valid (t : Table) :
  Forall (fun r => forall c, In c key_columns -> PrimFloat.is_nan (num r c) = false)
         (fill_key_columns t).
Proof.
  apply Forall_forall. intros r Hr. unfold fill_key_columns, fillna in Hr.
  apply in_map_iff in Hr as (r0 & <- & _). intros c Hc. cbn [num with_num].
  rewrite (col_in_true _ _ Hc). simpl.
  destruct (PrimFloat.is_nan (num r0 c)) eqn:E; [reflexivity | exact E].
Qed.

(** C9.  Row for row, the cleaned table is the input restricted to the
    rows with an allowlisted location and a date, changed in nothing but
    the seven key counters: location, ISO code, date, every text column
    and every other number column, [people_fully_vaccinated_per_hundred]
    among them, are as loaded.  The seven key counters have no missing
    cell left.  (The three derived columns are the only additions: they
    are the three extra fields of an enriched row.)  A percentage of
    fully vaccinated people can still be missing in a cleaned row and in
    the bars of the last panel. *)
Theorem cleaning_frame (df : Table) :
  Forall2 (same_outside key_columns)
          (filter (fun r => notna_opt (date r)) (filter_countries df))
          (map base (Cleaner df)) /\
  Forall (fun e => forall c, In c key_columns ->
                             PrimFloat.is_nan (num (base e) c) = false)
         (Cleaner df) /\
  ~ In people_fully_vaccinated_per_hundred key_columns /\
  (exists e, In e (Cleaner sample_df) /\
             PrimFloat.is_nan (pfv_per_hundred e) = true) /\
  (exists bar, In bar (bars_of pfv_per_hundred
                               (latest_vaccination (latest_data (Cleaner sample_df)))) /\
               PrimFloat.is_nan (snd bar) = true).
Proof.
  split; [|split; [|split; [|split]]].
  - unfold Cleaner, enriched. rewrite map_base_dropna.
    apply Forall2_filter.
    pose proof (fill_key_columns_frame (filter_countries df)) as H.
    apply (Forall2_strengthen _ _ _ _ (filter_countries_located df)) in H.
    revert H. apply Forall2_impl.
    intros a b [Hab Ha]. split; [exact Hab|].
    destruct Hab as (Hl & _ & Hd & _). rewrite Hl, Hd, Ha. now rewrite andb_true_r.
  - apply Forall_forall. intros e He. apply Cleaner_rows in He as (r & Hr & ->).
    pose proof (fill_key_columns_valid (filter_countries df)) as H.
    rewrite Forall_forall in H. now apply H.
  - simpl. intuition discriminate.
  - pose (f := fun e => PrimFloat.is_nan (pfv_per_hundred e)).
    assert (H : In true (map f (Cleaner sample_df))) by (vm_compute; auto).
    apply in_map_iff in H as (e & He & Hin). now exists e.
  - pose (f := fun bar : option string * float => PrimFloat.is_nan (snd bar)).
    assert (H : In true (map f (bars_of pfv_per_hundred
                                 (latest_vaccination (latest_data (Cleaner sample_df))))))
      by (vm_compute; auto).
    apply in_map_iff in H as (bar & Hb & Hin). now exists bar.
Qed.

(* ================================================================== *)
(** * Facts about binary64 comparison and division *)
(* ================================================================== *)

Lemma SFcompare_antisym (a b : spec_float) :
  SFcompare b a = option_map CompOpp (SFcompare a b).
Proof.
  destruct a as [sa|sa| |sa ma ea], b as [sb|sb| |sb mb eb]; simpl;
    try reflexivity; try (destruct sa; reflexivity); try (destruct sb; reflexivity);
    try (destruct sa, sb; reflexivity).
  destruct sa, sb; try reflexivity;
    rewrite (Z.compare_antisym ea eb); destruct (ea ?= eb)%Z; simpl; try reflexivity;
    now rewrite (Pos.compare_cont_antisym ma mb Eq).
Qed.

Lemma SFcompare_valid (a b : spec_float) :
  a <> S754_nan -> b <> S754_nan -> exists c, SFcompare a b = Some c.
Proof.
  intros Ha Hb.
  destruct a as [sa|sa| |sa ma ea], b as [sb|sb| |sb mb eb]; simpl;
    try contradiction; eauto.
Qed.

Lemma is_nan_Prim2SF (x : float) :
  PrimFloat.is_nan x = true <-> Prim2SF x = S754_nan.
Proof.
  unfold PrimFloat.is_nan. rewrite FloatAxioms.eqb_spec. unfold SFeqb. split.
  - intros H. destruct (Prim2SF x) as [s|s| |s m e]; simpl in H;
      try reflexivity; try (destruct s; discriminate).
    destruct s; rewrite Z.compare_refl, Pos.compare_cont_refl in H; discriminate.
  - intros ->. reflexivity.
Qed.

Lemma not_nan_Prim2SF (x : float) :
  PrimFloat.is_nan x = false -> Prim2SF x <> S754_nan.
Proof. intros H E. apply is_nan_Prim2SF in E. congruence. Qed.

Lemma leb_total_valid (x y : float) :
  PrimFloat.is_nan x = false -> PrimFloat.is_nan y = false ->
  PrimFloat.leb x y = true \/ PrimFloat.leb y x = true.
Proof.
  intros Hx Hy. apply not_nan_Prim2SF in Hx, Hy.
  rewrite !FloatAxioms.leb_spec. unfold SFleb. rewrite (SFcompare_antisym (Prim2SF x) (Prim2SF y)).
  destruct (SFcompare_valid _ _ Hx Hy) as [c ->]. destruct c; simpl; auto.
Qed.

Lemma desc_le_total (a b : float) : desc_le a b = true \/ desc_le b a = true.
Proof.
  unfold desc_le.
  destruct (PrimFloat.is_nan b) eqn:Eb; [now left|].
  destruct (PrimFloat.is_nan a) eqn:Ea; [now right|].
  destruct (leb_total_valid a b Ea Eb); auto.
Qed.

Lemma SFleb_trans (a b c : spec_float) :
  SFleb a b = true -> SFleb b c = true -> SFleb a c = true.
Proof.
  unfold SFleb.
  destruct a as [sa|sa| |sa ma ea], b as [sb|sb| |sb mb eb], c as [sc|sc| |sc mc ec];
    simpl; try discriminate; try reflexivity;
    try (destruct sa; simpl; try discriminate; try reflexivity);
    try (destruct sb; simpl; try discriminate; try reflexivity);
    try (destruct sc; simpl; try discriminate; try reflexivity).
  all: change (PosDef.Pos.compare_cont Eq) with Pos.compare.
  all: destruct (Z.compare_spec ea eb), (Z.compare_spec eb ec), (Z.compare_spec ea ec);
    subst; simpl; try discriminate; try reflexivity; try (exfalso; lia);
    destruct (Pos.compare_spec ma mb), (Pos.compare_spec mb mc), (Pos.compare_spec ma mc);
    subst; simpl; try discriminate; try reflexivity; try (exfalso; lia).
Qed.

Lemma desc_le_trans (a b c : float) :
  desc_le a b = true -> desc_le b c = true -> desc_le a c = true.
Proof.
  unfold desc_le.
  destruct (PrimFloat.is_nan c); [reflexivity|].
  destruct (PrimFloat.is_nan b); [discriminate|].
  destruct (PrimFloat.is_nan a); [discriminate|].
  rewrite !FloatAxioms.leb_spec. intros Hba Hcb. exact (SFleb_trans _ _ _ Hcb Hba).
Qed.

Lemma desc_le_descending (m : ERow -> float) (a b : ERow) :
  desc_le (m a) (m b) = true -> descending m a b.
Proof.
  unfold desc_le, descending.
  destruct (PrimFloat.is_nan (m b)); [now left|].
  destruct (PrimFloat.is_nan (m a)); [discriminate|]. now right.
Qed.

(** Dividing by a zero gives NaN or an infinity. *)
Lemma div_by_zero_not_finite (x y : float) :
  PrimFloat.is_zero y = true -> PrimFloat.is_finite (x / y) = false.
Proof.
  unfold PrimFloat.is_zero. rewrite FloatAxioms.eqb_spec. intros Hy.
  assert (Ey : exists s, Prim2SF y = S754_zero s).
  { change (Prim2SF PrimFloat.zero) with (S754_zero false) in Hy. unfold SFeqb in Hy.
    destruct (Prim2SF y) as [s|s| |s m e]; simpl in Hy;
      try discriminate; try (destruct s; discriminate). now exists s. }
  destruct Ey as [s Ey].
  assert (Ez : Prim2SF (x / y) = S754_nan \/ exists s', Prim2SF (x / y) = S754_infinity s').
  { rewrite FloatAxioms.div_spec, Ey. unfold SF64div, SFdiv.
    destruct (Prim2SF x) as [sx|sx| |sx mx ex]; eauto. }
  unfold PrimFloat.is_finite. destruct Ez as [Ez | [s' Ez]].
  - apply is_nan_Prim2SF in Ez. now rewrite Ez.
  - unfold PrimFloat.is_infinity. rewrite FloatAxioms.eqb_spec, FloatAxioms.abs_spec, Ez.
    change (Prim2SF PrimFloat.infinity) with (S754_infinity false). simpl.
    now rewrite orb_true_r.
Qed.

(** A row of the cleaned table with zero total cases has a death rate
    that is NaN or an infinity. *)
Lemma death_rate_of_zero_cases (df : Table) :
  Forall (fun e => PrimFloat.is_zero (num (base e) total_cases) = true ->
                   PrimFloat.is_finite (death_rate e) = false)
         (Cleaner df).
Proof.
  apply Forall_forall. intros e He Hz.
  apply Cleaner_rows in He as (r & _ & ->). simpl in *.
  now apply div_by_zero_not_finite.
Qed.

(* ================================================================== *)
(** * Multiplying by 100 keeps the order of two floats *)
(* ================================================================== *)

(** Panel 3 is sorted by death rate and draws the death rate times 100.
    The product is the exact product rounded to nearest, ties to even;
    this section follows the rounding of [SFmul] step by step and shows
    that it cannot reverse the order of two numbers. *)
Section Times100.

Local Open Scope Z_scope.

Lemma digits2_pos_bounds (p : positive) :
  2 ^ (Zpos (digits2_pos p) - 1) <= Zpos p < 2 ^ Zpos (digits2_pos p).
Proof.
  induction p as [p IH|p IH|]; simpl digits2_pos.
  - rewrite Pos2Z.inj_succ, (Pos2Z.inj_xI p).
    replace (Z.succ (Zpos (digits2_pos p)) - 1) with (Z.succ (Zpos (digits2_pos p) - 1)) by lia.
    rewrite !Z.pow_succ_r by lia.
    generalize dependent (2 ^ (Zpos (digits2_pos p) - 1)).
    generalize (2 ^ Zpos (digits2_pos p)). intros; lia.
  - rewrite Pos2Z.inj_succ, (Pos2Z.inj_xO p).
    replace (Z.succ (Zpos (digits2_pos p)) - 1) with (Z.succ (Zpos (digits2_pos p) - 1)) by lia.
    rewrite !Z.pow_succ_r by lia.
    generalize dependent (2 ^ (Zpos (digits2_pos p) - 1)).
    generalize (2 ^ Zpos (digits2_pos p)). intros; lia.
  - simpl. lia.
Qed.

Lemma iter_pos_comm {A} (f : A -> A) (p : positive) :
  forall x, SpecFloat.iter_pos f p (f x) = f (SpecFloat.iter_pos f p x).
Proof.
  induction p as [p IH|p IH|]; intros x; simpl; [| |reflexivity].
  - now rewrite !IH.
  - now rewrite !IH.
Qed.

Lemma iter_pos_succ {A} (f : A -> A) (p : positive) :
  forall x, SpecFloat.iter_pos f (Pos.succ p) x = f (SpecFloat.iter_pos f p x).
Proof.
  induction p as [p IH|p IH|]; intros x; simpl; [| |reflexivity].
  - rewrite !IH. now rewrite !iter_pos_comm.
  - now rewrite !iter_pos_comm.
Qed.

Ltac loc_goal :=
  unfold loc_of_rem;
  repeat match goal with
         | |- context [Z.eqb ?a ?b] => destruct (Z.eqb_spec a b)
         end;
  cbn [negb loc_of_shr_record]; try lia;
  repeat match goal with
         | |- context [Z.compare ?a ?b] => destruct (Z.compare_spec a b)
         end;
  try lia; try reflexivity.

Lemma shr_inv_step (P k : Z) (rec : shr_record) :
  0 <= k -> shr_inv P k rec -> shr_inv P (k + 1) (shr_1 rec).
Proof.
  intros Hk (q & rem & HP & Hrem & Hq & Hm & Hloc).
  destruct rec as [m r s]. simpl in Hm. subst m.
  assert (HT : 0 < 2 ^ k) by (apply Z.pow_pos_nonneg; lia).
  assert (HT2 : 2 ^ (k + 1) = 2 * 2 ^ k) by (rewrite Z.pow_add_r by lia; lia).
  assert (Hrs : orb r s = negb (rem =? 0)).
  { unfold loc_of_rem in Hloc. destruct r, s, (rem =? 0); simpl in *; congruence. }
  unfold shr_inv. rewrite HT2. unfold shr_1. rewrite Hrs.
  set (T := 2 ^ k) in *.
  destruct q as [|[q'|q'|]|q']; try lia.
  - exists 0, rem. cbn [shr_m]. do 4 (split; [lia|]). loc_goal.
  - exists (Zpos q'), (rem + T). cbn [shr_m]. do 4 (split; [lia|]). loc_goal.
  - exists (Zpos q'), rem. cbn [shr_m]. do 4 (split; [lia|]). loc_goal.
  - exists 0, (rem + T). cbn [shr_m]. do 4 (split; [lia|]). loc_goal.
Qed.

Lemma shr_inv_iter (P : Z) (p : positive) :
  0 <= P -> shr_inv P (Zpos p) (SpecFloat.iter_pos shr_1 p (Build_shr_record P false false)).
Proof.
  intros HP.
  assert (H0 : shr_inv P 0 (Build_shr_record P false false)).
  { exists P, 0. cbn [shr_m loc_of_shr_record]. rewrite Z.pow_0_r. do 4 (split; [lia|]). reflexivity. }
  induction p as [|p IH] using Pos.peano_ind.
  - apply (shr_inv_step P 0 _ (Z.le_refl 0) H0).
  - rewrite iter_pos_succ, Pos2Z.inj_succ. apply shr_inv_step; [lia | exact IH].
Qed.

Lemma first_round (P : Z) (p : positive) :
  0 <= P ->
  let rec := SpecFloat.iter_pos shr_1 p (Build_shr_record P false false) in
  round_nearest_even (shr_m rec) (loc_of_shr_record rec) = rne P (Zpos p).
Proof.
  intros HP rec.
  destruct (shr_inv_iter P p HP) as (q & rem & HPq & Hrem & Hq & Hm & Hloc).
  fold rec in Hm, Hloc. rewrite Hm, Hloc.
  assert (HT : 0 < 2 ^ Zpos p) by (apply Z.pow_pos_nonneg; lia).
  unfold rne.
  rewrite <- (Z.div_unique P (2 ^ Zpos p) q rem) by (try lia; rewrite HPq; lia).
  rewrite <- (Z.mod_unique P (2 ^ Zpos p) q rem) by (try lia; rewrite HPq; lia).
  unfold loc_of_rem. destruct (Z.eqb_spec rem 0) as [->|Hne]; cbn [round_nearest_even].
  - rewrite Z.mul_0_r. destruct (Z.compare_spec 0 (2 ^ Zpos p)); lia.
  - reflexivity.
Qed.

Lemma pow2_pos (k : Z) : 0 <= k -> 0 < 2 ^ k.
Proof. intros. apply Z.pow_pos_nonneg; lia. Qed.

Lemma rne_bounds (V N : Z) :
  0 <= N -> V / 2 ^ N <= rne V N <= V / 2 ^ N + 1.
Proof.
  intros HN. unfold rne.
  destruct (2 * (V mod 2 ^ N) ?= 2 ^ N); [destruct (Z.even (V / 2 ^ N))| |]; lia.
Qed.

Lemma rne_mono (V1 V2 N : Z) :
  0 <= N -> 0 <= V1 <= V2 -> rne V1 N <= rne V2 N.
Proof.
  intros HN HV. pose proof (pow2_pos N HN) as HT.
  pose proof (Z.div_le_mono V1 V2 (2 ^ N) HT (proj2 HV)) as Hq.
  destruct (Z.eq_dec (V1 / 2 ^ N) (V2 / 2 ^ N)) as [E | E].
  - pose proof (Z.div_mod V1 (2 ^ N) ltac:(lia)) as D1.
    pose proof (Z.div_mod V2 (2 ^ N) ltac:(lia)) as D2.
    assert (Hr : V1 mod 2 ^ N <= V2 mod 2 ^ N) by (rewrite E in D1; lia).
    unfold rne. rewrite E.
    destruct (Z.compare_spec (2 * (V1 mod 2 ^ N)) (2 ^ N));
      destruct (Z.compare_spec (2 * (V2 mod 2 ^ N)) (2 ^ N));
      destruct (Z.even (V2 / 2 ^ N)); lia.
  - pose proof (rne_bounds V1 N HN). pose proof (rne_bounds V2 N HN). lia.
Qed.

Lemma rne_scale (V N j : Z) :
  0 <= N -> 0 <= j -> rne (V * 2 ^ j) (N + j) = rne V N.
Proof.
  intros HN Hj. pose proof (pow2_pos N HN) as HT. pose proof (pow2_pos j Hj) as HJ.
  unfold rne. rewrite Z.pow_add_r by lia.
  rewrite Z.div_mul_cancel_r by lia. rewrite Z.mul_mod_distr_r by lia.
  replace (2 * (V mod 2 ^ N * 2 ^ j) ?= 2 ^ N * 2 ^ j)
    with (2 * (V mod 2 ^ N) ?= 2 ^ N); [reflexivity|].
  rewrite Z.mul_assoc. apply Zmult_compare_compat_r. lia.
Qed.

Lemma fexp64 (x : Z) : fexp prec emax x = Z.max (x - 53) (-1074).
Proof. reflexivity. Qed.

Lemma Zdigits2_bounds (q : Z) :
  0 < q -> 2 ^ (Zdigits2 q - 1) <= q < 2 ^ Zdigits2 q.
Proof. destruct q as [|p|p]; try lia. intros _. apply digits2_pos_bounds. Qed.

Lemma Zdigits2_pos (q : Z) : 0 < q -> 0 < Zdigits2 q.
Proof. destruct q; simpl; lia. Qed.

Lemma Zdigits2_le (q k : Z) : 0 < q -> q < 2 ^ k -> Zdigits2 q <= k.
Proof.
  intros Hq Hk. pose proof (Zdigits2_bounds q Hq) as [Hl _].
  pose proof (Zdigits2_pos q Hq).
  destruct (Z.le_gt_cases (Zdigits2 q) k) as [|Hgt]; [assumption|].
  assert (0 <= k).
  { destruct (Z.le_gt_cases 0 k); [assumption|]. rewrite Z.pow_neg_r in Hk by lia. lia. }
  pose proof (Z.pow_le_mono_r 2 k (Zdigits2 q - 1) ltac:(lia) ltac:(lia)). lia.
Qed.

Lemma Zdigits2_gt (q k : Z) : 0 <= k -> 2 ^ k <= q -> k < Zdigits2 q.
Proof.
  intros Hk Hq. pose proof (pow2_pos k Hk).
  pose proof (Zdigits2_bounds q ltac:(lia)) as [_ Hu].
  pose proof (Zdigits2_pos q ltac:(lia)).
  apply (Z.pow_lt_mono_r_iff 2); lia.
Qed.

Lemma rne_upper (P n d : Z) :
  0 < P -> 0 < n -> P < 2 ^ d -> d <= n + 53 -> 0 <= rne P n <= 2 ^ 53.
Proof.
  intros HP Hn Hd Hdn. pose proof (pow2_pos n ltac:(lia)) as HT.
  pose proof (rne_bounds P n ltac:(lia)) as [Hl Hu].
  assert (0 <= P / 2 ^ n) by (apply Z.div_pos; lia).
  assert (P / 2 ^ n < 2 ^ 53).
  { apply Z.div_lt_upper_bound; [lia|]. rewrite <- Z.pow_add_r by lia.
    destruct (Z.le_gt_cases 0 d).
    - pose proof (Z.pow_le_mono_r 2 d (n + 53) ltac:(lia) Hdn). lia.
    - rewrite Z.pow_neg_r in Hd by lia. lia. }
  lia.
Qed.

Lemma rne_lower (P n d : Z) :
  0 < n -> 2 ^ (d - 1) <= P -> d = n + 53 -> 2 ^ 52 <= rne P n.
Proof.
  intros Hn Hd Hdn. pose proof (pow2_pos n ltac:(lia)) as HT.
  pose proof (rne_bounds P n ltac:(lia)) as [Hl Hu].
  assert (2 ^ 52 <= P / 2 ^ n).
  { apply Z.div_le_lower_bound; [lia|]. rewrite <- Z.pow_add_r by lia.
    replace (n + 52) with (d - 1) by lia. exact Hd. }
  lia.
Qed.

Lemma bra_explicit (s : bool) (Pp : positive) (E : Z) :
  let P := Zpos Pp in
  let c := cexp P E in
  E < c ->
  exists q e,
    binary_round_aux prec emax s P E loc_Exact = rounded s q e /\
    0 <= q < 2 ^ 53 /\ -1074 <= e /\ (-1074 < e -> 2 ^ 52 <= q) /\
    q * 2 ^ (e + 1074) = rne P (c - E) * 2 ^ (c + 1074).
Proof.
  intros P c Hc.
  assert (HP : 0 < P) by (unfold P; lia).
  pose proof (Zdigits2_bounds P HP) as [HPl HPu].
  pose proof (Zdigits2_pos P HP) as Hd.
  assert (Hcmin : -1074 <= c) by (unfold c, cexp; lia).
  assert (Hcd : Zdigits2 P + E - 53 <= c) by (unfold c, cexp; lia).
  unfold binary_round_aux, shr_fexp. rewrite !fexp64.
  change (Z.max (Zdigits2 P + E - 53) (-1074)) with c.
  destruct (c - E) as [|p|p] eqn:En; try lia.
  cbn [shr_record_of_loc shr].
  rewrite (first_round P p ltac:(lia)). rewrite <- En.
  set (q' := rne P (c - E)).
  replace (E + (c - E)) with c by lia.
  assert (Hq' : 0 <= q' <= 2 ^ 53).
  { apply (rne_upper P (c - E) (Zdigits2 P)); lia. }
  assert (Hnorm : -1074 < c -> 2 ^ 52 <= q').
  { intros Hn. apply (rne_lower P (c - E) (Zdigits2 P)); try lia.
    unfold c, cexp in *. lia. }
  rewrite fexp64. change (emax - prec) with 971.
  destruct (Z.eq_dec q' (2 ^ 53)) as [E53 | N53].
  - clearbody q'. subst q'.
    assert (Hd' : Zdigits2 (2 ^ 53) = 54) by reflexivity.
    rewrite Hd'. replace (Z.max (54 + c - 53) (-1074) - c) with 1 by lia.
    cbn [shr SpecFloat.iter_pos]. change (shr_1 _) with (Build_shr_record (2 ^ 52) false false).
    cbn [shr_m]. exists (2 ^ 52), (c + 1).
    split; [reflexivity|]. split; [split; [lia | reflexivity]|].
    split; [lia|]. split; [lia|].
    replace (c + 1 + 1074) with (Z.succ (c + 1074)) by lia.
    rewrite Z.pow_succ_r by lia. change (2 ^ 53) with (2 * 2 ^ 52). lia.
  - assert (Hle : Z.max (Zdigits2 q' + c - 53) (-1074) - c <= 0).
    { destruct (Z.eq_dec q' 0) as [-> | Hne]; [simpl; lia|].
      pose proof (Zdigits2_le q' 53 ltac:(lia) ltac:(lia)). lia. }
    exists q', c.
    split; [|split; [lia | split; [lia | split; [exact Hnorm | reflexivity]]]].
    destruct (Z.max (Zdigits2 q' + c - 53) (-1074) - c) as [|p'|p'] eqn:En'; try lia;
      reflexivity.
Qed.

Lemma pow2_add (a b : Z) : 0 <= a -> 0 <= b -> 2 ^ (a + b) = 2 ^ a * 2 ^ b.
Proof. intros. apply Z.pow_add_r; lia. Qed.

Lemma canon_order (q1 e1 q2 e2 : Z) :
  canonical q1 e1 -> canonical q2 e2 -> 0 < q1 ->
  q1 * 2 ^ (e1 + 1074) <= q2 * 2 ^ (e2 + 1074) ->
  0 < q2 /\ (e1 < e2 \/ (e1 = e2 /\ q1 <= q2)).
Proof.
  intros (Hq1 & He1 & Hn1) (Hq2 & He2 & Hn2) Hpos HW.
  pose proof (pow2_pos (e1 + 1074) ltac:(lia)) as T1.
  pose proof (pow2_pos (e2 + 1074) ltac:(lia)) as T2.
  assert (0 < q2) by nia. split; [assumption|].
  destruct (Z.lt_trichotomy e1 e2) as [Hlt | [Heq | Hgt]]; [now left | right | exfalso].
  - split; [exact Heq|]. subst e2. nia.
  - specialize (Hn1 ltac:(lia)).
    assert (E : 2 ^ (e1 + 1074) = 2 ^ (e1 - e2 - 1) * (2 * 2 ^ (e2 + 1074))).
    { rewrite <- (Z.pow_succ_r 2 (e2 + 1074)) by lia.
      rewrite <- pow2_add by lia. f_equal. lia. }
    pose proof (pow2_pos (e1 - e2 - 1) ltac:(lia)) as T3.
    change (2 ^ 53) with (2 * 2 ^ 52) in Hq2.
    rewrite E in HW.
    assert (q2 * 2 ^ (e2 + 1074) < 2 * 2 ^ 52 * 2 ^ (e2 + 1074)) by nia.
    assert (2 ^ 52 * (1 * (2 * 2 ^ (e2 + 1074))) <= q1 * (2 ^ (e1 - e2 - 1) * (2 * 2 ^ (e2 + 1074)))).
    { apply Z.mul_le_mono_nonneg; try lia. apply Z.mul_le_mono_nonneg_r; lia. }
    lia.
Qed.

Lemma out_le (q1 e1 q2 e2 : Z) :
  canonical q1 e1 -> canonical q2 e2 ->
  q1 * 2 ^ (e1 + 1074) <= q2 * 2 ^ (e2 + 1074) ->
  SFleb (rounded false q1 e1) (rounded false q2 e2) = true /\
  SFleb (rounded true q2 e2) (rounded true q1 e1) = true.
Proof.
  intros C1 C2 HW.
  destruct (Z.eq_dec q1 0) as [-> | Hne].
  - destruct C2 as ((Hq2 & _) & _). unfold rounded at 1 4.
    destruct q2 as [|m2|m2]; try lia; [now split|].
    unfold rounded. destruct (e2 <=? 971); now split.
  - pose proof C1 as ((Hq1 & _) & _).
    destruct (canon_order q1 e1 q2 e2 C1 C2 ltac:(lia) HW) as [Hq2 Hord].
    destruct q1 as [|m1|m1]; try lia. destruct q2 as [|m2|m2]; try lia.
    unfold rounded.
    destruct (Z.leb_spec e1 971), (Z.leb_spec e2 971); try lia;
      try (now split).
    unfold SFleb, SFcompare.
    destruct Hord as [Hlt | [-> Hle]].
    + rewrite (proj2 (Z.compare_lt_iff e1 e2) Hlt).
      rewrite (proj2 (Z.compare_gt_iff e2 e1) Hlt). now split.
    + rewrite Z.compare_refl.
      change (PosDef.Pos.compare_cont Eq) with Pos.compare.
      assert (Hm : (m1 <= m2)%positive) by lia.
      destruct (Pos.compare_spec m1 m2); destruct (Pos.compare_spec m2 m1);
        subst; simpl; try lia; now split.
Qed.

Lemma round_value_mono (P1 P2 E1 E2 E0 : Z) :
  0 < P1 -> 0 < P2 -> E0 <= E1 -> E0 <= E2 ->
  E1 < cexp P1 E1 -> E2 < cexp P2 E2 ->
  P1 * 2 ^ (E1 - E0) <= P2 * 2 ^ (E2 - E0) ->
  rne P1 (cexp P1 E1 - E1) * 2 ^ (cexp P1 E1 + 1074)
  <= rne P2 (cexp P2 E2 - E2) * 2 ^ (cexp P2 E2 + 1074).
Proof.
  intros HP1 HP2 H01 H02 Hc1 Hc2 HV.
  pose proof (Zdigits2_bounds P1 HP1) as [L1 U1].
  pose proof (Zdigits2_bounds P2 HP2) as [L2 U2].
  pose proof (Zdigits2_pos P1 HP1) as D1. pose proof (Zdigits2_pos P2 HP2) as D2.
  pose proof (pow2_pos (E1 - E0) ltac:(lia)) as T1.
  pose proof (pow2_pos (E2 - E0) ltac:(lia)) as T2.
  assert (Hd : Zdigits2 P1 + E1 <= Zdigits2 P2 + E2).
  { assert (2 ^ (Zdigits2 P1 - 1 + (E1 - E0)) < 2 ^ (Zdigits2 P2 + (E2 - E0))).
    { rewrite !pow2_add by lia. nia. }
    apply Z.pow_lt_mono_r_iff in H; lia. }
  set (c1 := cexp P1 E1) in *. set (c2 := cexp P2 E2) in *.
  assert (Hc : c1 <= c2) by (unfold c1, c2, cexp; lia).
  assert (Hm1 : -1074 <= c1) by (unfold c1, cexp; lia).
  destruct (Z.eq_dec c1 c2) as [Heq | Hne].
  - rewrite <- Heq.
    apply Z.mul_le_mono_nonneg_r; [pose proof (pow2_pos (c1 + 1074)); lia|].
    rewrite <- (rne_scale P1 (c1 - E1) (E1 - E0)) by lia.
    rewrite <- (rne_scale P2 (c1 - E2) (E2 - E0)) by lia.
    replace (c1 - E1 + (E1 - E0)) with (c1 - E0) by lia.
    replace (c1 - E2 + (E2 - E0)) with (c1 - E0) by lia.
    apply rne_mono; [lia|]. split; [|exact HV]. nia.
  - assert (R1 : 0 <= rne P1 (c1 - E1) <= 2 ^ 53).
    { apply (rne_upper P1 (c1 - E1) (Zdigits2 P1)); try lia.
      unfold c1, cexp. lia. }
    assert (R2 : 2 ^ 52 <= rne P2 (c2 - E2)).
    { apply (rne_lower P2 (c2 - E2) (Zdigits2 P2)); try lia.
      unfold c2, cexp in *. lia. }
    pose proof (pow2_pos (c1 + 1074) ltac:(lia)) as T3.
    assert (E : 2 ^ (c2 + 1074) = 2 ^ (c2 - c1 - 1) * (2 * 2 ^ (c1 + 1074))).
    { rewrite <- (Z.pow_succ_r 2 (c1 + 1074)) by lia.
      rewrite <- pow2_add by lia. f_equal. lia. }
    pose proof (pow2_pos (c2 - c1 - 1) ltac:(lia)) as T4.
    rewrite E. change (2 ^ 53) with (2 * 2 ^ 52) in R1.
    assert (rne P1 (c1 - E1) * 2 ^ (c1 + 1074) <= 2 ^ 52 * (1 * (2 * 2 ^ (c1 + 1074)))) by nia.
    assert (2 ^ 52 * (1 * (2 * 2 ^ (c1 + 1074)))
            <= rne P2 (c2 - E2) * (2 ^ (c2 - c1 - 1) * (2 * 2 ^ (c1 + 1074)))).
    { apply Z.mul_le_mono_nonneg; try lia. apply Z.mul_le_mono_nonneg_r; lia. }
    lia.
Qed.

Lemma bounded_facts (m : positive) (e : Z) :
  bounded prec emax m e = true ->
  -1074 <= e <= 971 /\ Zpos m < 2 ^ 53 /\ (-1074 < e -> 2 ^ 52 <= Zpos m).
Proof.
  unfold bounded, canonical_mantissa. rewrite fexp64.
  change (emax - prec) with 971.
  intros H. apply andb_prop in H as [Hc He].
  apply Z.eqb_eq in Hc. apply Z.leb_le in He.
  pose proof (digits2_pos_bounds m) as [L U].
  split; [lia|]. split.
  - assert (Zpos (digits2_pos m) <= 53) by lia.
    pose proof (Z.pow_le_mono_r 2 (Zpos (digits2_pos m)) 53 ltac:(lia) H). lia.
  - intros Hn. assert (Hd : Zpos (digits2_pos m) = 53) by lia.
    rewrite Hd in L. exact L.
Qed.

Lemma product_shift (m : positive) (e : Z) :
  bounded prec emax m e = true ->
  e + -46 < cexp (Zpos (m * m100)) (e + -46).
Proof.
  intros H. apply bounded_facts in H as (He & Hu & Hn).
  rewrite Pos2Z.inj_mul. unfold cexp.
  destruct (Z.eq_dec e (-1074)) as [-> | Hne]; [lia|].
  specialize (Hn ltac:(lia)).
  assert (2 ^ 104 <= Zpos m * Zpos m100).
  { change (2 ^ 104) with (2 ^ 52 * 2 ^ 52).
    apply Z.mul_le_mono_nonneg; try lia. unfold m100. lia. }
  pose proof (Zdigits2_gt (Zpos m * Zpos m100) 104 ltac:(lia) H). lia.
Qed.

Lemma valid_order (m1 m2 : positive) (e1 e2 : Z) :
  bounded prec emax m1 e1 = true -> bounded prec emax m2 e2 = true ->
  SFleb (S754_finite false m1 e1) (S754_finite false m2 e2) = true ->
  Zpos m1 * 2 ^ (e1 + 1074) <= Zpos m2 * 2 ^ (e2 + 1074).
Proof.
  intros B1 B2 H.
  apply bounded_facts in B1 as (He1 & Hu1 & Hn1).
  apply bounded_facts in B2 as (He2 & Hu2 & Hn2).
  unfold SFleb, SFcompare in H.
  change (PosDef.Pos.compare_cont Eq) with Pos.compare in H.
  pose proof (pow2_pos (e1 + 1074) ltac:(lia)) as T1.
  destruct (Z.compare_spec e1 e2) as [-> | Hlt | Hgt]; [| |discriminate].
  - destruct (Pos.compare_spec m1 m2); try discriminate; subst; nia.
  - specialize (Hn2 ltac:(lia)).
    assert (E : 2 ^ (e2 + 1074) = 2 ^ (e2 - e1 - 1) * (2 * 2 ^ (e1 + 1074))).
    { rewrite <- (Z.pow_succ_r 2 (e1 + 1074)) by lia.
      rewrite <- pow2_add by lia. f_equal. lia. }
    pose proof (pow2_pos (e2 - e1 - 1) ltac:(lia)) as T4.
    rewrite E. change (2 ^ 53) with (2 * 2 ^ 52) in Hu1.
    assert (Zpos m1 * 2 ^ (e1 + 1074) <= 2 ^ 52 * (1 * (2 * 2 ^ (e1 + 1074)))) by nia.
    assert (2 ^ 52 * (1 * (2 * 2 ^ (e1 + 1074)))
            <= Zpos m2 * (2 ^ (e2 - e1 - 1) * (2 * 2 ^ (e1 + 1074)))).
    { apply Z.mul_le_mono_nonneg; try lia. apply Z.mul_le_mono_nonneg_r; lia. }
    lia.
Qed.

Lemma times100_finite (s : bool) (m : positive) (e : Z) :
  bounded prec emax m e = true ->
  exists q e',
    SFmul prec emax (S754_finite s m e) c100 = rounded s q e' /\ canonical q e' /\
    q * 2 ^ (e' + 1074)
    = rne (Zpos (m * m100)) (cexp (Zpos (m * m100)) (e + -46) - (e + -46))
      * 2 ^ (cexp (Zpos (m * m100)) (e + -46) + 1074).
Proof.
  intros B. pose proof (product_shift m e B) as Hs.
  destruct (bra_explicit s (m * m100) (e + -46) Hs)
    as (q & e' & Hout & Hq & He & Hn & HW).
  exists q, e'. split; [cbn [SFmul c100]; rewrite xorb_false_r; exact Hout|].
  split; [now repeat split | exact HW].
Qed.

Lemma times100_magnitude_mono (m1 m2 : positive) (e1 e2 : Z) :
  bounded prec emax m1 e1 = true -> bounded prec emax m2 e2 = true ->
  SFleb (S754_finite false m1 e1) (S754_finite false m2 e2) = true ->
  SFleb (SFmul prec emax (S754_finite false m1 e1) c100)
        (SFmul prec emax (S754_finite false m2 e2) c100) = true /\
  SFleb (SFmul prec emax (S754_finite true m2 e2) c100)
        (SFmul prec emax (S754_finite true m1 e1) c100) = true.
Proof.
  intros B1 B2 H.
  pose proof (valid_order m1 m2 e1 e2 B1 B2 H) as HV.
  destruct (times100_finite false m1 e1 B1) as (q1 & f1 & O1 & C1 & W1).
  destruct (times100_finite false m2 e2 B2) as (q2 & f2 & O2 & C2 & W2).
  destruct (times100_finite true m1 e1 B1) as (q1' & f1' & O1' & C1' & W1').
  destruct (times100_finite true m2 e2 B2) as (q2' & f2' & O2' & C2' & W2').
  assert (HW : rne (Zpos (m1 * m100)) (cexp (Zpos (m1 * m100)) (e1 + -46) - (e1 + -46))
               * 2 ^ (cexp (Zpos (m1 * m100)) (e1 + -46) + 1074)
               <= rne (Zpos (m2 * m100)) (cexp (Zpos (m2 * m100)) (e2 + -46) - (e2 + -46))
                  * 2 ^ (cexp (Zpos (m2 * m100)) (e2 + -46) + 1074)).
  { pose proof (bounded_facts m1 e1 B1) as (He1 & _).
    pose proof (bounded_facts m2 e2 B2) as (He2 & _).
    apply (round_value_mono _ _ _ _ (-1120)); try lia;
      try (now apply product_shift).
    rewrite !Pos2Z.inj_mul.
    replace (e1 + -46 - -1120) with (e1 + 1074) by lia.
    replace (e2 + -46 - -1120) with (e2 + 1074) by lia.
    nia. }
  rewrite O1, O2, O1', O2'. split.
  - apply (out_le q1 f1 q2 f2 C1 C2). lia.
  - apply (out_le q1' f1' q2' f2' C1' C2'). lia.
Qed.

Lemma out_cases (s : bool) (q e : Z) :
  0 <= q ->
  rounded s q e = S754_zero s \/ (exists m e', rounded s q e = S754_finite s m e')
  \/ rounded s q e = S754_infinity s.
Proof.
  intros Hq. unfold rounded. destruct q as [|m|m]; try lia; [now left|].
  destruct (e <=? 971); [right; left; eauto | now right; right].
Qed.

Lemma finite_leb_neg (m1 m2 : positive) (e1 e2 : Z) :
  SFleb (S754_finite true m1 e1) (S754_finite true m2 e2)
  = SFleb (S754_finite false m2 e2) (S754_finite false m1 e1).
Proof.
  unfold SFleb, SFcompare. rewrite (Z.compare_antisym e1 e2).
  destruct (e1 ?= e2); simpl; try reflexivity.
  rewrite (Pos.compare_cont_antisym m1 m2 Eq). simpl.
  now destruct (PosDef.Pos.compare_cont Eq m2 m1).
Qed.

Lemma SF_times100_mono (a b : spec_float) :
  SpecFloat.valid_binary prec emax a = true -> SpecFloat.valid_binary prec emax b = true ->
  SFleb b a = true ->
  SFleb (SFmul prec emax b c100) (SFmul prec emax a c100) = true.
Proof.
  intros Va Vb H.
  destruct b as [sb|sb| |sb mb eb], a as [sa|sa| |sa ma ea];
    try discriminate H; cbn [SpecFloat.valid_binary] in Va, Vb.
  - reflexivity.
  - destruct sa; [discriminate H | now destruct sb].
  - destruct sa; [discriminate H|].
    destruct (times100_finite false ma ea Va) as (q & e & -> & ((Hq & _) & _) & _).
    cbn [SFmul c100].
    destruct (out_cases false q e Hq) as [-> | [(m & e' & ->) | ->]]; reflexivity.
  - destruct sb; [now destruct sa | discriminate H].
  - destruct sb, sa; try discriminate H; reflexivity.
  - destruct sb; [|discriminate H].
    destruct (times100_finite sa ma ea Va) as (q & e & -> & ((Hq & _) & _) & _).
    cbn [SFmul c100].
    destruct (out_cases sa q e Hq) as [-> | [(m & e' & ->) | ->]];
      destruct sa; reflexivity.
  - destruct sb; [|discriminate H].
    destruct (times100_finite true mb eb Vb) as (q & e & -> & ((Hq & _) & _) & _).
    cbn [SFmul c100].
    destruct (out_cases true q e Hq) as [-> | [(m & e' & ->) | ->]]; reflexivity.
  - destruct sa; [discriminate H|].
    destruct (times100_finite sb mb eb Vb) as (q & e & -> & ((Hq & _) & _) & _).
    cbn [SFmul c100].
    destruct (out_cases sb q e Hq) as [-> | [(m & e' & ->) | ->]];
      destruct sb; reflexivity.
  - destruct sb, sa.
    + rewrite finite_leb_neg in H.
      now apply (times100_magnitude_mono ma mb ea eb Va Vb H).
    + destruct (times100_finite true mb eb Vb) as (q & e & -> & ((Hq & _) & _) & _).
      destruct (times100_finite false ma ea Va) as (q' & f & -> & ((Hq' & _) & _) & _).
      destruct (out_cases true q e Hq) as [-> | [(m & e' & ->) | ->]];
        destruct (out_cases false q' f Hq') as [-> | [(m' & f' & ->) | ->]];
        reflexivity.
    + discriminate H.
    + now apply (times100_magnitude_mono mb ma eb ea Vb Va H).
Qed.

Lemma SF_times100_nan (a : spec_float) :
  SpecFloat.valid_binary prec emax a = true ->
  (SFmul prec emax a c100 = S754_nan <-> a = S754_nan).
Proof.
  intros Va. destruct a as [s|s| |s m e]; cbn [SFmul c100]; try easy.
  cbn [SpecFloat.valid_binary] in Va.
  destruct (times100_finite s m e Va) as (q & e' & Ho & ((Hq & _) & _) & _).
  cbn [SFmul c100] in Ho. rewrite Ho.
  destruct (out_cases s q e' Hq) as [-> | [(m' & f' & ->) | ->]]; easy.
Qed.

End Times100.

Lemma Prim2SF_100 : Prim2SF 100 = c100.
Proof. reflexivity. Qed.

Lemma mul100_leb (x y : float) :
  PrimFloat.leb y x = true -> PrimFloat.leb (y * 100) (x * 100) = true.
Proof.
  rewrite !FloatAxioms.leb_spec, !FloatAxioms.mul_spec, Prim2SF_100.
  apply SF_times100_mono; apply Prim2SF_valid.
Qed.

Lemma mul100_is_nan (x : float) :
  PrimFloat.is_nan (x * 100) = PrimFloat.is_nan x.
Proof.
  pose proof (SF_times100_nan (Prim2SF x) (Prim2SF_valid x)) as H.
  rewrite <- Prim2SF_100, <- FloatAxioms.mul_spec in H.
  destruct (PrimFloat.is_nan x) eqn:Ex.
  - apply is_nan_Prim2SF. apply H. now apply is_nan_Prim2SF.
  - destruct (PrimFloat.is_nan (x * 100)) eqn:Ey; [|reflexivity].
    apply is_nan_Prim2SF in Ey. apply H in Ey. apply is_nan_Prim2SF in Ey.
    congruence.
Qed.

Lemma falls_to_times100 (x y : float) :
  falls_to x y -> falls_to (x * 100) (y * 100).
Proof.
  unfold falls_to. rewrite !mul100_is_nan.
  intros [Hy | (Hx & Hy & Hle)]; [now left | right].
  split; [exact Hx|]. split; [exact Hy|]. now apply mul100_leb.
Qed.

(* ================================================================== *)
(** * The bar-chart panels *)
(* ================================================================== *)

Lemma sort_desc_perm (m : ERow -> float) (t : list ERow) :
  Permutation (sort_desc m t) t.
Proof. apply sort_by_perm. Qed.

Lemma sort_desc_sorted (m : ERow -> float) (t : list ERow) :
  StronglySorted (descending m) (sort_desc m t).
Proof.
  unfold sort_desc.
  pose proof (sort_by_strongly_sorted
                (fun a b => desc_le (m a) (m b))
                (fun a b => desc_le_total (m a) (m b))
                (fun a b c => desc_le_trans (m a) (m b) (m c)) t) as H.
  induction H as [|x l _ IH Hx]; constructor; [exact IH|].
  revert Hx. apply Forall_impl. intros b. apply desc_le_descending.
Qed.

Lemma StronglySorted_map {A B} (R : B -> B -> Prop) (f : A -> B) (l : list A) :
  StronglySorted (fun a b => R (f a) (f b)) l -> StronglySorted R (map f l).
Proof.
  induction 1 as [|x l _ IH Hx]; simpl; constructor; [exact IH|].
  now apply Forall_map.
Qed.

Lemma bars_of_descend (m h : ERow -> float) (t : list ERow) :
  (forall a b, descending m a b -> falls_to (h a) (h b)) ->
  bars_descend (bars_of h (sort_desc m t)).
Proof.
  intros Hmh. unfold bars_descend, bars_of. apply StronglySorted_map. cbn [snd].
  pose proof (sort_desc_sorted m t) as H.
  induction H as [|x l _ IH Hx]; constructor; [exact IH|].
  revert Hx. apply Forall_impl. intros b. apply Hmh.
Qed.

Lemma bars_of_perm (h : ERow -> float) (t snap : list ERow) :
  Permutation t snap ->
  Permutation (bars_of h t) (map (fun e => (eloc e, h e)) snap).
Proof. intros P. unfold bars_of. now apply Permutation_map. Qed.

(** C8.  The figure has four bar-chart panels.  The bars of each panel,
    as pairs of country and height, are the entries of the same latest
    snapshot, one bar per entry, rearranged: the height is the death rate
    times 100 in the first panel, the cases per million, the deaths per
    million and the percentage fully vaccinated in the others.  In each
    panel the heights never rise from left to right: every bar is at
    least as high as every bar after it, bars without height last (for
    the first panel because multiplying by 100 keeps the order in which
    the death rates were sorted).  The order of the countries can differ
    from panel to panel: for Kenya and India in [crossing_df] it
    alternates. *)
Theorem bar_panels_sorted (rolling : list float -> list float) (df_filtered : list ERow) :
  let snap := latest_data df_filtered in
  (exists rate cases deaths vacc,
      bar_panels (panels rolling df_filtered) = [rate; cases; deaths; vacc] /\
      (Permutation rate (map (fun e => (eloc e, (death_rate e * 100)%float)) snap) /\
       bars_descend rate) /\
      (Permutation cases (map (fun e => (eloc e, cases_per_million e)) snap) /\
       bars_descend cases) /\
      (Permutation deaths (map (fun e => (eloc e, deaths_per_million e)) snap) /\
       bars_descend deaths) /\
      (Permutation vacc
                   (map (fun e => (eloc e,
                                   num (base e) people_fully_vaccinated_per_hundred))
                        snap) /\
       bars_descend vacc)) /\
  map (map fst) (bar_panels (panels rolling (Cleaner crossing_df)))
  = [ [Some "Kenya"; Some "India"]; [Some "India"; Some "Kenya"];
      [Some "Kenya"; Some "India"]; [Some "India"; Some "Kenya"] ].
Proof.
  intros snap.
  assert (P1 : Permutation (by_death_rate snap) snap) by apply sort_desc_perm.
  assert (P2 : Permutation (by_cases_per_million snap) snap).
  { unfold by_cases_per_million. now rewrite sort_desc_perm. }
  assert (P3 : Permutation (by_deaths_per_million snap) snap).
  { unfold by_deaths_per_million. now rewrite sort_desc_perm. }
  assert (P4 : Permutation (latest_vaccination snap) snap).
  { unfold latest_vaccination. now rewrite sort_desc_perm. }
  split; [|reflexivity].
  exists (bars_of (fun e => (death_rate e * 100)%float) (by_death_rate snap)),
         (bars_of cases_per_million (by_cases_per_million snap)),
         (bars_of deaths_per_million (by_deaths_per_million snap)),
         (bars_of pfv_per_hundred (latest_vaccination snap)).
  split; [reflexivity|].
  split; [|split; [|split]]; (split; [now apply bars_of_perm|]).
  - apply bars_of_descend. intros a b H. apply falls_to_times100. exact H.
  - apply bars_of_descend. intros a b H. exact H.
  - apply bars_of_descend. intros a b H. exact H.
  - apply bars_of_descend. intros a b H. exact H.
Qed.

(* ================================================================== *)
(** * A run on a file with an unparseable date *)
(* ================================================================== *)




(* ================================================================== *)
(** * Which countries the panels and the maps show *)
(* ================================================================== *)

Lemma snapshot_keys {A} (le : A -> A -> bool) (loc : A -> option string) (t : list A) :
  NoDup (map Some (group_keys (map loc (sort_by le t)))) /\
  forall l, In l (map Some (group_keys (map loc (sort_by le t))))
            <-> l <> None /\ In l (map loc t).
Proof.
  split; [apply NoDup_map_Some, group_keys_NoDup|].
  intros l. rewrite in_map_iff. split.
  - intros (k & <- & Hin). split; [discriminate|].
    now apply (group_keys_sorted_input le loc).
  - intros [Hne Hin]. destruct l as [k|]; [|contradiction].
    exists k. split; [reflexivity|]. now apply (group_keys_sorted_input le loc).
Qed.

Lemma latest_data_locations (t : list ERow) :
  map eloc (latest_data t) = map Some (group_keys (map eloc (sort_by edate_le t))).
Proof. unfold latest_data, groupby_last_e. now rewrite map_map. Qed.

Lemma latest_global_locations (df : Table) :
  map location (latest_global df)
  = map Some (group_keys (map location (sort_by rdate_le df))).
Proof. unfold latest_global, groupby_last. now rewrite map_map. Qed.

Lemma Forall2_map_eq {A B C} (R : A -> B -> Prop) (f : A -> C) (g : B -> C)
      (l : list A) (u : list B) :
  (forall a b, R a b -> f a = g b) -> Forall2 R l u -> map f l = map g u.
Proof. intros H. induction 1; simpl; [reflexivity|]. f_equal; auto. Qed.

Lemma Cleaner_frame (df : Table) :
  Forall2 (same_outside key_columns)
          (filter (fun r => notna_opt (date r)) (filter_countries df))
          (map base (Cleaner df)).
Proof.
  unfold Cleaner, enriched. rewrite map_base_dropna. apply Forall2_filter.
  pose proof (fill_key_columns_frame (filter_countries df)) as H.
  apply (Forall2_strengthen _ _ _ _ (filter_countries_located df)) in H.
  revert H. apply Forall2_impl. intros a b [Hab Ha]. split; [exact Hab|].
  destruct Hab as (Hl & _ & Hd & _). rewrite Hl, Hd, Ha. now rewrite andb_true_r.
Qed.

Lemma Cleaner_locations (df : Table) :
  map eloc (Cleaner df)
  = map location (filter (fun r => notna_opt (date r)) (filter_countries df)).
Proof.
  change (map eloc (Cleaner df)) with (map (fun e => location (base e)) (Cleaner df)).
  rewrite <- (map_map base location). symmetry.
  apply (Forall2_map_eq _ _ _ _ _ (fun a b H => eq_sym (proj1 H)) (Cleaner_frame df)).
Qed.

Lemma Cleaner_location_In (df : Table) (loc : option string) :
  In loc (map eloc (Cleaner df)) <->
  allowlisted loc /\ exists r, In r df /\ location r = loc /\ date r <> None.
Proof.
  rewrite Cleaner_locations, in_map_iff. split.
  - intros (r & <- & Hr). apply filter_In in Hr as [Hr Hd].
    apply filter_In in Hr as [Hr Ha]. split.
    + now apply (isin_spec countries_of_interest).
    + exists r. repeat split; auto. intros E. rewrite E in Hd. discriminate.
  - intros [Ha (r & Hr & <- & Hd)]. exists r. split; [reflexivity|].
    apply filter_In. split.
    + apply filter_In. split; [exact Hr|]. now apply (isin_spec countries_of_interest).
    + now destruct (date r).
Qed.

Lemma allowlisted_located (loc : option string) : allowlisted loc -> loc <> None.
Proof. intros (c & -> & _). discriminate. Qed.

Lemma bars_of_sorted_snapshot (df : Table) (h : ERow -> float) (t' : list ERow) :
  Permutation t' (latest_data (Cleaner df)) ->
  NoDup (map fst (bars_of h t')) /\
  (forall loc, In loc (map fst (bars_of h t')) <->
               allowlisted loc /\
               exists r, In r df /\ location r = loc /\ date r <> None) /\
  List.length (bars_of h t') <= 10.
Proof.
  intros P.
  assert (E : map fst (bars_of h t') = map eloc t').
  { unfold bars_of. rewrite map_map. reflexivity. }
  assert (P' : Permutation (map eloc t') (map eloc (latest_data (Cleaner df))))
    by now apply Permutation_map.
  destruct (snapshot_keys edate_le eloc (Cleaner df)) as [Hnd Hin].
  rewrite <- latest_data_locations in Hnd, Hin.
  assert (Hmem : forall loc, In loc (map eloc t') <->
                             allowlisted loc /\
                             exists r, In r df /\ location r = loc /\ date r <> None).
  { intros loc. rewrite <- Cleaner_location_In. split.
    - intros H. apply (Permutation_in _ P') in H. now apply Hin in H.
    - intros H. apply (Permutation_in _ (Permutation_sym P')). apply Hin.
      split; [|exact H]. apply Cleaner_location_In in H as [H _].
      now apply allowlisted_located. }
  assert (Hnd' : NoDup (map eloc t')).
  { exact (Permutation_NoDup (Permutation_sym P') Hnd). }
  rewrite E. split; [exact Hnd'|]. split; [exact Hmem|].
  replace (List.length (bars_of h t')) with (List.length (map eloc t'))
    by (unfold bars_of; now rewrite !length_map).
  change 10 with (List.length (map Some allowlist)).
  apply NoDup_incl_length; [exact Hnd'|].
  intros loc Hloc. apply Hmem in Hloc as [(c & -> & Hc) _]. now apply in_map.
Qed.

(** X3.  Each of the four bar-chart panels has one bar per country, no
    country twice, at most ten bars, and a bar for a location exactly
    when that location is one of the ten listed countries and some row of
    the input for it has a date: a listed country without dated rows has
    no bar at all. *)
Theorem bar_panel_countries (rolling : list float -> list float) (df : Table) :
  List.length (bar_panels (panels rolling (Cleaner df))) = 4 /\
  Forall (fun bars =>
            NoDup (map fst bars) /\
            (forall loc, In loc (map fst bars) <->
                         allowlisted loc /\
                         exists r, In r df /\ location r = loc /\ date r <> None) /\
            List.length bars <= 10)
         (bar_panels (panels rolling (Cleaner df))).
Proof.
  split; [reflexivity|].
  set (snap := latest_data (Cleaner df)).
  assert (P1 : Permutation (by_death_rate snap) snap) by apply sort_desc_perm.
  assert (P2 : Permutation (by_cases_per_million snap) snap).
  { unfold by_cases_per_million. now rewrite sort_desc_perm. }
  assert (P3 : Permutation (by_deaths_per_million snap) snap).
  { unfold by_deaths_per_million. now rewrite sort_desc_perm. }
  assert (P4 : Permutation (latest_vaccination snap) snap).
  { unfold latest_vaccination. now rewrite sort_desc_perm. }
  cbn [panels bar_panels]. fold snap.
  do 4 (constructor; [now apply bars_of_sorted_snapshot|]). constructor.
Qed.

Lemma filter_in_group_cons {A} (loc : A -> option string) (k k0 : string)
      (x : A) (t : list A) :
  loc x = Some k0 ->
  filter (in_group loc k) (x :: t)
  = if String.eqb k0 k then x :: filter (in_group loc k) t
    else filter (in_group loc k) t.
Proof. intros E. simpl. unfold in_group at 1. now rewrite E. Qed.

Lemma groups_other_keys {A} (loc : A -> option string) (k0 : string) (x : A)
      (t : list A) (ks : list string) :
  loc x = Some k0 -> ~ In k0 ks ->
  map (fun k => filter (in_group loc k) (x :: t)) ks
  = map (fun k => filter (in_group loc k) t) ks.
Proof.
  intros E Hk. apply map_ext_in. intros k Hin.
  rewrite (filter_in_group_cons loc k k0 x t E).
  destruct (String.eqb k0 k) eqn:Ek; [|reflexivity].
  apply String.eqb_eq in Ek. subst. contradiction.
Qed.

(** Splitting a table by location loses and repeats no row, when every
    row's location is one of the (distinct) keys. *)
Lemma groups_partition {A} (loc : A -> option string) (keys : list string)
      (t : list A) :
  NoDup keys ->
  Forall (fun x => exists k, loc x = Some k /\ In k keys) t ->
  Permutation (List.concat (map (fun k => filter (in_group loc k) t) keys)) t.
Proof.
  intros Hnd. induction 1 as [|x t (k0 & E & Hin) _ IH].
  - induction keys as [|k ks IHk]; simpl; [constructor|].
    apply IHk. now apply NoDup_cons_iff in Hnd.
  - apply in_split in Hin as (ks1 & ks2 & ->).
    apply NoDup_remove_2 in Hnd as Hnot.
    assert (H1 : ~ In k0 ks1) by (intros H; apply Hnot, in_or_app; now left).
    assert (H2 : ~ In k0 ks2) by (intros H; apply Hnot, in_or_app; now right).
    rewrite map_app, concat_app in IH |- *. cbn [map List.concat] in IH |- *.
    rewrite (groups_other_keys loc k0 x t ks1 E H1).
    rewrite (groups_other_keys loc k0 x t ks2 E H2).
    rewrite (filter_in_group_cons loc k0 k0 x t E), String.eqb_refl.
    simpl. rewrite <- Permutation_middle. now constructor.
Qed.

Lemma combine_map_map {A B C} (f : A -> B) (g : A -> C) (l : list A) :
  combine (map f l) (map g l) = map (fun x => (f x, g x)) l.
Proof. induction l; simpl; [reflexivity|]. now f_equal. Qed.

Lemma lines_of_labels (y : list ERow -> list float) (t : list ERow) :
  map fst (lines_of y t) = countries_of_interest.
Proof. reflexivity. Qed.

Lemma Cleaner_allowlisted (df : Table) :
  Forall (fun e => exists k, eloc e = Some k /\ In k countries_of_interest)
         (Cleaner df).
Proof.
  apply Forall_forall. intros e He. apply (in_map eloc) in He.
  now apply Cleaner_location_In in He as [Ha _].
Qed.

Lemma lines_of_points (f : ERow -> float) (df : Table) :
  Permutation (List.concat (map snd (lines_of (map f) (Cleaner df))))
              (map (fun e => (date (base e), f e)) (Cleaner df)).
Proof.
  unfold lines_of. rewrite map_map. cbn [snd].
  rewrite (map_ext _ (fun c => map (fun e => (date (base e), f e))
                                   (filter (in_group eloc c) (Cleaner df))))
    by (intros c; apply combine_map_map).
  rewrite <- (map_map (fun c => filter (in_group eloc c) (Cleaner df))
                      (map (fun e => (date (base e), f e)))).
  rewrite <- concat_map. apply Permutation_map, groups_partition.
  - repeat constructor; simpl; intuition discriminate.
  - apply Cleaner_allowlisted.
Qed.

(** X4.  The figure has three line-chart panels, each with ten lines
    labelled by the ten countries in the order of the list, also for a
    country without rows.  In the panels of total cases and of the
    percentage fully vaccinated, a line holds the points (date, value) of
    its country's cleaned rows in table order, and together the ten lines
    hold every cleaned row exactly once. *)
Theorem line_panels_plot_each_row_once
  (rolling : list float -> list float) (df : Table) :
  exists cases avg vacc,
    line_panels (panels rolling (Cleaner df)) = [cases; avg; vacc] /\
    map fst cases = allowlist /\
    map fst avg = allowlist /\
    map fst vacc = allowlist /\
    Forall (fun ln => snd ln
                      = map (fun e => (date (base e), num (base e) total_cases))
                            (filter (in_group eloc (fst ln)) (Cleaner df))) cases /\
    Forall (fun ln => snd ln
                      = map (fun e => (date (base e), pfv_per_hundred e))
                            (filter (in_group eloc (fst ln)) (Cleaner df))) vacc /\
    Permutation (List.concat (map snd cases))
                (map (fun e => (date (base e), num (base e) total_cases)) (Cleaner df)) /\
    Permutation (List.concat (map snd vacc))
                (map (fun e => (date (base e), pfv_per_hundred e)) (Cleaner df)).
Proof.
  do 3 eexists. split; [reflexivity|].
  do 3 (split; [apply lines_of_labels|]).
  split; [|split; [|split]].
  - unfold lines_of. apply Forall_forall. intros ln Hln.
    apply in_map_iff in Hln as (c & <- & _). apply combine_map_map.
  - unfold lines_of. apply Forall_forall. intros ln Hln.
    apply in_map_iff in Hln as (c & <- & _). apply combine_map_map.
  - apply (lines_of_points (fun e => num (base e) total_cases)).
  - apply (lines_of_points pfv_per_hundred).
Qed.

(** X5.  The two maps are drawn over the same marks: one per location of
    the whole loaded table, no location twice, whether or not it is one
    of the ten listed countries (rows without location excepted), with
    the same ISO codes and hover names in the same order on both maps. *)
Theorem maps_cover_all_locations (df : Table) :
  exists cases vacc,
    map marks (maps df) = [cases; vacc] /\
    map mark_hover cases = map mark_hover vacc /\
    map mark_iso cases = map mark_iso vacc /\
    NoDup (map mark_hover cases) /\
    (forall loc, In loc (map mark_hover cases) <->
                 loc <> None /\ In loc (map location df)).
Proof.
  exists (marks_of total_cases_per_million (latest_global df)),
         (marks_of people_fully_vaccinated_per_hundred (latest_global df)).
  split; [reflexivity|].
  assert (E : forall m, map mark_hover (marks_of m (latest_global df))
                        = map location (latest_global df)).
  { intros m. unfold marks_of. now rewrite map_map. }
  split; [now rewrite !E|].
  split; [unfold marks_of; now rewrite !map_map|].
  rewrite E, latest_global_locations. apply snapshot_keys.
Qed.

(* ================================================================== *)
(** * The date of a snapshot entry *)
(* ================================================================== *)

Lemma last_valid_date {R} (get : R -> option Timestamp) (g : list R)
      (v : option Timestamp) :
  last_valid_cell (fun a b => date_le (get a) (get b)) isna_opt None get g v ->
  latest_date_of get g v.
Proof.
  intros [(Hv & r & Hr & E & Hafter) | [-> Hall]].
  - destruct v as [d|]; [|discriminate]. split; [now exists r|].
    intros r' d' Hr' E'.
    destruct (date_le (get r') (get r)) eqn:Hle.
    + rewrite E, E' in Hle. now apply Z.leb_le.
    + apply (Hafter r' Hr') in Hle. rewrite E' in Hle. discriminate.
  - intros r Hr. apply Hall in Hr. now destruct (get r).
Qed.

(** X6.  The date of a snapshot entry is the latest date found among the
    rows of its location (NaT when none of them has a date), in the
    snapshot behind the bar charts and in the one behind the maps.  In
    the snapshot of a cleaned table every entry has a date. *)
Theorem snapshot_dates_are_latest :
  (forall (t : list ERow) s k,
      In s (latest_data t) -> eloc s = Some k ->
      latest_date_of (fun e => date (base e))
                     (filter (in_group eloc k) t) (date (base s))) /\
  (forall (df : Table) s k,
      In s (latest_global df) -> location s = Some k ->
      latest_date_of date (filter (in_group location k) df) (date s)) /\
  (forall df : Table,
      Forall (fun s => date (base s) <> None) (latest_data (Cleaner df))).
Proof.
  assert (L1 : forall (t : list ERow) s k,
             In s (latest_data t) -> eloc s = Some k ->
             latest_date_of (fun e => date (base e))
                            (filter (in_group eloc k) t) (date (base s))).
  { intros t s k Hs E. apply last_valid_date.
    rewrite (latest_data_rows t s k Hs E). cbn [base last_erow date last_row].
    rewrite map_map.
    destruct (sorted_group edate_le eloc k t edate_le_total edate_le_trans)
      as [Hsorted Hmem].
    apply (last_valid_cell_ext _ _ _ _ (filter (in_group eloc k) (sort_by edate_le t))).
    - intros r. now rewrite Hmem, filter_In, in_group_spec.
    - apply (last_valid_sorted edate_le isna_opt None (fun e => date (base e)));
        [exact edate_le_total | exact Hsorted]. }
  split; [exact L1|]. split.
  - intros df s k Hs E. apply last_valid_date.
    rewrite (latest_global_rows df s k Hs E). cbn [date last_row].
    destruct (sorted_group rdate_le location k df rdate_le_total rdate_le_trans)
      as [Hsorted Hmem].
    apply (last_valid_cell_ext _ _ _ _ (filter (in_group location k) (sort_by rdate_le df))).
    + intros r. now rewrite Hmem, filter_In, in_group_spec.
    + apply (last_valid_sorted rdate_le isna_opt None date);
        [exact rdate_le_total | exact Hsorted].
  - intros df. apply Forall_forall. intros s Hs Hnone.
    destruct (snapshot_keys edate_le eloc (Cleaner df)) as [_ Hin].
    rewrite <- latest_data_locations in Hin.
    destruct (proj1 (Hin (eloc s)) (in_map eloc _ _ Hs)) as [Hne Hloc].
    destruct (eloc s) as [k|] eqn:E; [|contradiction].
    pose proof (L1 (Cleaner df) s k Hs E) as H. rewrite Hnone in H. simpl in H.
    apply in_map_iff in Hloc as (e & He & Hin').
    assert (Hg : In e (filter (in_group eloc k) (Cleaner df))).
    { apply filter_In. split; [exact Hin' | now apply in_group_spec]. }
    apply H in Hg.
    unfold Cleaner, dropna_date_location in Hin'. apply filter_In in Hin' as [_ Hd].
    rewrite Hg in Hd. discriminate.
Qed.

(* ================================================================== *)
(** * Edge values of the derived columns *)
(* ================================================================== *)

Lemma is_zero_Prim2SF (x : float) :
  PrimFloat.is_zero x = true <-> exists s, Prim2SF x = S754_zero s.
Proof.
  unfold PrimFloat.is_zero. rewrite FloatAxioms.eqb_spec.
  change (Prim2SF PrimFloat.zero) with (S754_zero false). unfold SFeqb. split.
  - destruct (Prim2SF x) as [s|s| |s m e]; simpl;
      try discriminate; try (destruct s; discriminate). now exists s.
  - intros [s ->]. reflexivity.
Qed.

Lemma is_infinity_Prim2SF (x : float) :
  PrimFloat.is_infinity x = true <-> exists s, Prim2SF x = S754_infinity s.
Proof.
  unfold PrimFloat.is_infinity. rewrite FloatAxioms.eqb_spec, FloatAxioms.abs_spec.
  change (Prim2SF PrimFloat.infinity) with (S754_infinity false). unfold SFeqb. split.
  - destruct (Prim2SF x) as [s|s| |s m e]; simpl; try discriminate. now exists s.
  - intros [s ->]. reflexivity.
Qed.

(** The quotient of a number that is not missing by a zero: NaN for a
    zero, an infinity otherwise. *)
Lemma div_by_zero_cases (x y : float) :
  PrimFloat.is_zero y = true -> PrimFloat.is_nan x = false ->
  (PrimFloat.is_zero x = true -> PrimFloat.is_nan (x / y) = true) /\
  (PrimFloat.is_zero x = false -> PrimFloat.is_infinity (x / y) = true).
Proof.
  intros Hy Hx. apply is_zero_Prim2SF in Hy as [sy Hy].
  apply not_nan_Prim2SF in Hx.
  pose proof (FloatAxioms.div_spec x y) as D. rewrite Hy in D.
  unfold SF64div, SFdiv in D. split.
  - intros Hz. apply is_zero_Prim2SF in Hz as [sx Hz]. rewrite Hz in D.
    now apply is_nan_Prim2SF.
  - intros Hz. apply is_infinity_Prim2SF.
    destruct (Prim2SF x) as [sx|sx| |sx mx ex] eqn:Ex; eauto.
    + assert (PrimFloat.is_zero x = true) by (apply is_zero_Prim2SF; eauto).
      congruence.
    + contradiction.
Qed.

(** A zero divided by a number that is neither missing nor zero is zero. *)
Lemma zero_div (x y : float) :
  PrimFloat.is_zero x = true ->
  PrimFloat.is_nan y = false -> PrimFloat.is_zero y = false ->
  PrimFloat.is_zero (x / y) = true.
Proof.
  intros Hx Hn Hz. apply is_zero_Prim2SF in Hx as [sx Hx].
  apply not_nan_Prim2SF in Hn. apply is_zero_Prim2SF.
  rewrite FloatAxioms.div_spec, Hx. unfold SF64div, SFdiv.
  destruct (Prim2SF y) as [sy|sy| |sy my ey] eqn:Ey; eauto.
  - assert (PrimFloat.is_zero y = true) by (apply is_zero_Prim2SF; eauto).
    congruence.
  - contradiction.
Qed.

(** A quotient by NaN or by a zero, scaled by a million, is NaN or an
    infinity. *)
Lemma per_million_not_finite (x p : float) :
  PrimFloat.is_nan p = true \/ PrimFloat.is_zero p = true ->
  PrimFloat.is_finite (x / p * 1e6) = false /\
  (PrimFloat.is_nan p = true -> PrimFloat.is_nan (x / p * 1e6) = true).
Proof.
  intros Hp.
  assert (Hm : exists m e, Prim2SF 1e6 = S754_finite false m e)
    by (vm_compute; eauto).
  destruct Hm as (m & e & Hm).
  assert (Hq : Prim2SF (x / p) = S754_nan \/ exists s, Prim2SF (x / p) = S754_infinity s).
  { rewrite FloatAxioms.div_spec. unfold SF64div, SFdiv. destruct Hp as [Hp | Hp].
    - apply is_nan_Prim2SF in Hp. rewrite Hp. left.
      now destruct (Prim2SF x).
    - apply is_zero_Prim2SF in Hp as [s Hp]. rewrite Hp.
      destruct (Prim2SF x) as [sx|sx| |sx mx ex]; eauto. }
  assert (Hr : Prim2SF (x / p * 1e6) = S754_nan
               \/ exists s, Prim2SF (x / p * 1e6) = S754_infinity s).
  { rewrite FloatAxioms.mul_spec, Hm. unfold SF64mul, SFmul.
    destruct Hq as [-> | [s ->]]; eauto. }
  split.
  - unfold PrimFloat.is_finite. destruct Hr as [Hr | Hr].
    + apply is_nan_Prim2SF in Hr. now rewrite Hr.
    + apply is_infinity_Prim2SF in Hr. rewrite Hr. now rewrite orb_true_r.
  - intros Hn. apply is_nan_Prim2SF in Hn. apply is_nan_Prim2SF.
    rewrite FloatAxioms.mul_spec, FloatAxioms.div_spec, Hn.
    unfold SF64mul, SF64div, SFmul, SFdiv. now destruct (Prim2SF x).
Qed.

Lemma Cleaner_counters_valid (df : Table) (e : ERow) (c : NumCol) :
  In e (Cleaner df) -> In c key_columns ->
  PrimFloat.is_nan (num (base e) c) = false.
Proof.
  intros He Hc. apply Cleaner_rows in He as (r & Hr & ->).
  pose proof (fill_key_columns_valid (filter_countries df)) as H.
  rewrite Forall_forall in H. now apply H.
Qed.

(** X7.  In a cleaned row whose total cases are zero the division of line
    44 does not fail: the death rate is NaN when the total deaths are zero
    too, and an infinity otherwise; in both cases it is not a finite
    number. *)
Theorem death_rate_without_cases (df : Table) :
  Forall (fun e =>
            PrimFloat.is_zero (num (base e) total_cases) = true ->
            PrimFloat.is_finite (death_rate e) = false /\
            (PrimFloat.is_zero (num (base e) total_deaths) = true ->
             PrimFloat.is_nan (death_rate e) = true) /\
            (PrimFloat.is_zero (num (base e) total_deaths) = false ->
             PrimFloat.is_infinity (death_rate e) = true))
         (Cleaner df).
Proof.
  apply Forall_forall. intros e He Hz.
  assert (Hd : PrimFloat.is_nan (num (base e) total_deaths) = false).
  { apply (Cleaner_counters_valid df); [exact He | simpl; auto]. }
  apply Cleaner_rows in He as (r & _ & ->). cbn [base death_rate derive] in *.
  split; [now apply div_by_zero_not_finite|].
  now apply div_by_zero_cases.
Qed.

(** X8.  The population is not one of the filled columns: in a cleaned row
    whose population is missing, the cases and the deaths per million are
    both missing, and where the population is missing or zero neither of
    them is a finite number. *)
Theorem per_million_without_population (df : Table) :
  Forall (fun e =>
            (PrimFloat.is_nan (num (base e) population) = true ->
             PrimFloat.is_nan (cases_per_million e) = true /\
             PrimFloat.is_nan (deaths_per_million e) = true) /\
            (PrimFloat.is_nan (num (base e) population) = true \/
             PrimFloat.is_zero (num (base e) population) = true ->
             PrimFloat.is_finite (cases_per_million e) = false /\
             PrimFloat.is_finite (deaths_per_million e) = false))
         (Cleaner df) /\
  ~ In population key_columns.
Proof.
  split; [|simpl; intuition discriminate].
  apply Forall_forall. intros e He.
  apply Cleaner_rows in He as (r & _ & ->).
  cbn [base cases_per_million deaths_per_million derive]. split.
  - intros Hn. split; apply per_million_not_finite; auto.
  - intros Hp. split; apply per_million_not_finite; auto.
Qed.

(** X9.  In a cleaned row with zero total deaths and total cases other
    than zero, the death rate is zero. *)
Theorem death_rate_without_deaths (df : Table) :
  Forall (fun e =>
            PrimFloat.is_zero (num (base e) total_deaths) = true ->
            PrimFloat.is_zero (num (base e) total_cases) = false ->
            PrimFloat.is_zero (death_rate e) = true)
         (Cleaner df).
Proof.
  apply Forall_forall. intros e He Hd Hc.
  assert (Hn : PrimFloat.is_nan (num (base e) total_cases) = false).
  { apply (Cleaner_counters_valid df); [exact He | simpl; auto]. }
  apply Cleaner_rows in He as (r & _ & ->). cbn [base death_rate derive] in *.
  now apply zero_div.
Qed.

(** X10.  For the seven key counters the snapshot behind the bar charts
    does hold the cells of a last row: a key counter of an entry is never
    missing, and it is the counter of a row of that location which no
    row of the location follows in date order. *)
Theorem snapshot_key_counters (df : Table) :
  Forall (fun s =>
            forall k c, eloc s = Some k -> In c key_columns ->
              PrimFloat.is_nan (num (base s) c) = false /\
              exists r, In r (Cleaner df) /\ eloc r = Some k /\
                        num (base r) c = num (base s) c /\
                        forall r', In r' (Cleaner df) -> eloc r' = Some k ->
                                   edate_le r' r = true)
         (latest_data (Cleaner df)).
Proof.
  apply Forall_forall. intros s Hs k c E Hc.
  assert (LV : last_valid_cell edate_le PrimFloat.is_nan nan (ecell (loaded c))
                               (filter (in_group eloc k) (Cleaner df))
                               (ecell (loaded c) s)).
  { rewrite (latest_data_rows _ s k Hs E), ecell_last_erow.
    destruct (sorted_group edate_le eloc k (Cleaner df) edate_le_total edate_le_trans)
      as [Hsorted Hmem].
    apply (last_valid_cell_ext _ _ _ _
             (filter (in_group eloc k) (sort_by edate_le (Cleaner df)))).
    - intros r. now rewrite Hmem, filter_In, in_group_spec.
    - apply last_valid_sorted; [exact edate_le_total | exact Hsorted]. }
  assert (Hvalid : forall r, In r (filter (in_group eloc k) (Cleaner df)) ->
                             PrimFloat.is_nan (ecell (loaded c) r) = false).
  { intros r Hr. apply filter_In in Hr as [Hr _].
    now apply (Cleaner_counters_valid df). }
  cbn [ecell] in *.
  destruct LV as [(Hv & r & Hr & Er & Hafter) | [_ Hall]].
  - split; [exact Hv|]. exists r.
    pose proof Hr as Hr'. apply filter_In in Hr' as [Hin Hg].
    apply in_group_spec in Hg. repeat split; auto.
    intros r' Hin' E'. destruct (edate_le r' r) eqn:Hle; [reflexivity|].
    assert (Hg' : In r' (filter (in_group eloc k) (Cleaner df))).
    { apply filter_In. split; [exact Hin' | now apply in_group_spec]. }
    pose proof (Hafter r' Hg' Hle) as Hn. pose proof (Hvalid r' Hg') as Hv'.
    cbn [ecell] in Hn, Hv'. congruence.
  - exfalso.
    destruct (snapshot_keys edate_le eloc (Cleaner df)) as [_ Hin].
    rewrite <- latest_data_locations in Hin.
    destruct (proj1 (Hin (eloc s)) (in_map eloc _ _ Hs)) as [_ Hloc].
    rewrite E in Hloc. apply in_map_iff in Hloc as (e & He & Hin').
    assert (Hg : In e (filter (in_group eloc k) (Cleaner df))).
    { apply filter_In. split; [exact Hin' | now apply in_group_spec]. }
    specialize (Hall e Hg). pose proof (Hvalid e Hg) as Hv'.
    cbn [ecell] in Hall, Hv'. congruence.
Qed.
